(** * get_changelog.py: extraction of one version's section of a changelog

    A shallow embedding of [scripts/get_changelog.py] and the properties of
    its version parsing and section search.

    Python strings are lists of characters.  A character is a code point
    below 256 (Rocq's [ascii]); on that range Python's [\d] is [0-9] and
    [\s] / [str.isspace] is the set 9-13, 28-32, 133, 160.

    The script is built from five regular expressions.  They are embedded
    as values of a small regex syntax, run by a backtracking matcher that
    returns every way of matching in the order Python's engine tries them
    (greedy first), so that the head of the list is Python's match. *)

From Stdlib Require Import Ascii String.
From Stdlib Require Import List Bool Arith Lia ZArith Sorted.
Import ListNotations.

(** * The model *)

(** ** Strings *)

Definition str := list ascii.

(** A literal of the source. *)
Definition py (s : string) : str := list_ascii_of_string s.

(** The line feed, written [\n] in the source. *)
Definition nl : ascii := ascii_of_nat 10.

Definition is_nl (c : ascii) : bool := Ascii.eqb c nl.

(** The double quote. *)
Definition dquote : ascii := ascii_of_nat 34.

Definition between (lo hi : nat) (c : ascii) : bool :=
  (lo <=? nat_of_ascii c) && (nat_of_ascii c <=? hi).

(** [\s] and [str.isspace]: tab, LF, VT, FF, CR, the separators FS GS RS US,
    space, NEL and the no-break space. *)
Definition is_space (c : ascii) : bool :=
  between 9 13 c || between 28 32 c || between 133 133 c || between 160 160 c.

(** [\d] *)
Definition is_digit (c : ascii) : bool := between 48 57 c.

(** [[A-Za-z0-9.+-]] *)
Definition is_suffix_char (c : ascii) : bool :=
  between 65 90 c || between 97 122 c || between 48 57 c
  || Ascii.eqb c "."%char || Ascii.eqb c "+"%char || Ascii.eqb c "-"%char.

Fixpoint drop_while (p : ascii -> bool) (s : str) : str :=
  match s with
  | c :: t => if p c then drop_while p t else s
  | [] => []
  end.

(** [s.lstrip(chars)] *)
Definition lstrip (chars : str) (s : str) : str :=
  drop_while (fun c => existsb (Ascii.eqb c) chars) s.

(** [s.strip()] *)
Definition strip (s : str) : str :=
  rev (drop_while is_space (rev (drop_while is_space s))).

(** [s[a:b]] for indices that are not negative. *)
Definition slice (s : str) (a b : nat) : str := firstn (b - a) (skipn a s).

(** [sep.join(l)] *)
Fixpoint join (sep : str) (l : list str) : str :=
  match l with
  | [] => []
  | [x] => x
  | x :: t => x ++ sep ++ join sep t
  end.

Fixpoint starts_with (p s : str) : bool :=
  match p, s with
  | [], _ => true
  | a :: p', b :: s' => Ascii.eqb a b && starts_with p' s'
  | _ :: _, [] => false
  end.

(** ** Regular expressions *)

(** The constructs the script's patterns use.  [Lit s] is the text [s]
    taken literally, which is what [re.escape(s)] stands for inside a
    pattern; [Plus p] is [c+] for a one-character class [c]; [Opt] is
    [(?:...)?]; [Group n] is the [n]-th pair of capturing parentheses;
    [Bol] and [Eol] are [^] and [$] under the flag [(?m)]; [Look] is
    [(?=...)] around a pattern without groups. *)
Inductive re : Type :=
| Lit (s : str)
| Class (p : ascii -> bool)
| Plus (p : ascii -> bool)
| Seq (r1 r2 : re)
| Alt (r1 r2 : re)
| Opt (r : re)
| Group (n : nat) (r : re)
| Bol
| Eol
| Look (r : re).

Declare Scope re_scope.
Delimit Scope re_scope with re.
Bind Scope re_scope with re.
Notation "r1 >> r2" := (Seq r1 r2) (at level 61, right associativity) : re_scope.

(** A position of the matcher in the subject string: its index, whether a
    line starts there (index 0, or just after a line feed), the groups
    captured so far and the text that is left. *)
Record cursor : Type := Cursor {
  pos : nat;
  bol : bool;
  groups : list (nat * str);
  rest : str
}.

Definition cursor0 (s : str) : cursor := Cursor 0 true [] s.

(** The cursor after the characters [l] have been read; [t] is what is left. *)
Definition advance (k : cursor) (l t : str) : cursor :=
  Cursor (pos k + length l)
         (match rev l with c :: _ => is_nl c | [] => bol k end)
         (groups k) t.

(** The ends of a greedy run of [p], longest first; [l] is the run read so
    far, reversed. *)
Fixpoint many (p : ascii -> bool) (k : cursor) (l : str) (s : str) : list cursor :=
  match s with
  | c :: t =>
      if p c then many p k (c :: l) t ++ [advance k (rev l) s]
      else [advance k (rev l) s]
  | [] => [advance k (rev l) s]
  end.

Definition capture (n : nat) (k k' : cursor) : cursor :=
  Cursor (pos k') (bol k')
         ((n, firstn (pos k' - pos k) (rest k)) :: groups k') (rest k').

(** All the ways [r] matches at [k], in the order the backtracking engine
    tries them. *)
Fixpoint run (r : re) (k : cursor) : list cursor :=
  match r with
  | Lit s =>
      if starts_with s (rest k)
      then [advance k s (skipn (length s) (rest k))] else []
  | Class p =>
      match rest k with
      | c :: t => if p c then [advance k [c] t] else []
      | [] => []
      end
  | Plus p =>
      match rest k with
      | c :: t => if p c then many p k [c] t else []
      | [] => []
      end
  | Seq r1 r2 => flat_map (run r2) (run r1 k)
  | Alt r1 r2 => run r1 k ++ run r2 k
  | Opt r1 => run r1 k ++ [k]
  | Group n r1 => map (capture n k) (run r1 k)
  | Bol => if bol k then [k] else []
  | Eol =>
      match rest k with
      | c :: _ => if is_nl c then [k] else []
      | [] => [k]
      end
  | Look r1 =>
      match run r1 k with
      | _ :: _ => [k]
      | [] => []
      end
  end.

(** A match object: where the match starts and the cursor at its end. *)
Record match_obj : Type := Match {
  m_start : nat;
  m_cursor : cursor
}.

Definition m_end (m : match_obj) : nat := pos (m_cursor m).

(** [m.group(n)]: [None] for a group that took no part in the match. *)
Fixpoint assoc (n : nat) (l : list (nat * str)) : option str :=
  match l with
  | (i, s) :: t => if Nat.eqb i n then Some s else assoc n t
  | [] => None
  end.

Definition group (m : match_obj) (n : nat) : option str :=
  assoc n (groups (m_cursor m)).

(** [re.fullmatch(r, s)]: the first way of matching that uses all of [s]. *)
Definition fullmatch (r : re) (s : str) : option match_obj :=
  match filter (fun k => match rest k with [] => true | _ => false end)
               (run r (cursor0 s)) with
  | k :: _ => Some (Match 0 k)
  | [] => None
  end.

(** [r.search(s)]: the match at the leftmost index that has one. *)
Fixpoint search_from (r : re) (i : nat) (b : bool) (s : str) : option match_obj :=
  match run r (Cursor i b [] s) with
  | k :: _ => Some (Match i k)
  | [] =>
      match s with
      | c :: t => search_from r (S i) (is_nl c) t
      | [] => None
      end
  end.

Definition search (r : re) (s : str) : option match_obj :=
  search_from r 0 true s.

(** [re.findall(r, s)] for a pattern with one group that matches no empty
    string: group 1 of the successive matches, each search resuming where
    the previous match ended.  [skip] counts the characters still inside
    the previous match. *)
Fixpoint findall_from (r : re) (skip i : nat) (b : bool) (s : str) : list str :=
  match skip with
  | S skip' =>
      match s with
      | c :: t => findall_from r skip' (S i) (is_nl c) t
      | [] => []
      end
  | 0 =>
      match run r (Cursor i b [] s) with
      | k :: _ =>
          match assoc 1 (groups k) with Some g => g | None => [] end ::
          match s with
          | c :: t => findall_from r (pos k - i - 1) (S i) (is_nl c) t
          | [] => []
          end
      | [] =>
          match s with
          | c :: t => findall_from r 0 (S i) (is_nl c) t
          | [] => []
          end
      end
  end.

Definition findall (r : re) (s : str) : list str := findall_from r 0 0 true s.

(** ** The script *)

(** [(\d+\.\d+\.\d+)(?:-([A-Za-z0-9.+-]+))?] *)
Definition version_re : re :=
  Group 1 (Plus is_digit >> Lit (py ".") >> Plus is_digit >> Lit (py ".")
           >> Plus is_digit)
  >> Opt (Lit (py "-") >> Group 2 (Plus is_suffix_char)).

(** [(?=\s|$)] *)
Definition token_end : re := Look (Alt (Class is_space) Eol).

(** [(?m)^##\s+{re.escape(base)}-{re.escape(suffix)}(?=\s|$)] *)
Definition exact_header_re (base suffix : str) : re :=
  Bol >> Lit (py "##") >> Plus is_space >> Lit base >> Lit (py "-")
  >> Lit suffix >> token_end.

(** [(?m)^##\s+{re.escape(base)}(?:-[A-Za-z0-9.+-]+)?(?=\s|$)] *)
Definition wildcard_header_re (base : str) : re :=
  Bol >> Lit (py "##") >> Plus is_space >> Lit base
  >> Opt (Lit (py "-") >> Plus is_suffix_char) >> token_end.

(** [(?m)^##\s+(\d+\.\d+\.\d+(?:-[A-Za-z0-9.+-]+)?)] *)
Definition available_re : re :=
  Bol >> Lit (py "##") >> Plus is_space
  >> Group 1 (Plus is_digit >> Lit (py ".") >> Plus is_digit >> Lit (py ".")
              >> Plus is_digit >> Opt (Lit (py "-") >> Plus is_suffix_char)).

(** [(?m)^##\s+] *)
Definition next_header_re : re := Bol >> Lit (py "##") >> Plus is_space.

(** The truth value of [suffix] in [if suffix:]. *)
Definition truthy (suffix : option str) : bool :=
  match suffix with
  | Some (_ :: _) => true
  | _ => false
  end.

Definition or_empty (o : option str) : str :=
  match o with Some s => s | None => [] end.

(** Lines 22-25. *)
Definition header_re (base : str) (suffix : option str) : re :=
  if truthy suffix then exact_header_re base (or_empty suffix)
  else wildcard_header_re base.

(** A requested version, as lines 12-17 leave it: [raw], [base], [suffix]. *)
Record version_spec : Type := VersionSpec {
  raw : str;
  base : str;
  suffix : option str
}.

(** Lines 12-17; [None] stands for the [ValueError]. *)
Definition parseVersion (version : str) : option version_spec :=
  let raw := lstrip (py "v") (strip version) in
  match fullmatch version_re raw with
  | None => None
  | Some m => Some (VersionSpec raw (or_empty (group m 1)) (group m 2))
  end.

Inductive section_result : Type :=
| Found (section : str)
| VersionNotFound (found : list str).

(** Lines 22-40, up to the writing of the result. *)
Definition findSection (text : str) (v : version_spec) : section_result :=
  match search (header_re (base v) (suffix v)) text with
  | None => VersionNotFound (findall available_re text)
  | Some m =>
      let start := m_end m in
      let nxt := search next_header_re (skipn start text) in
      let end_ :=
        match nxt with
        | Some n => start + m_start n
        | None => length text
        end in
      Found (strip (slice text start end_))
  end.

(** What a run of the script leaves behind. *)
Inductive outcome : Type :=
| Printed (stdout : str)
| SysExit (code : Z) (stderr : str)
| ValueError (msg : str).

(** The text written to [sys.stderr] at lines 30-33. *)
Definition not_found_message (raw file : str) (found : list str) : str :=
  py "Version " ++ dquote :: raw ++ dquote :: py " not found in " ++ file
  ++ py "." ++ nl :: py "Available: " ++ join (py ", ") (firstn 20 found)
  ++ [nl].

(** The script, run with [--version version --file file] on a file that
    holds [text]. *)
Definition main (version file text : str) : outcome :=
  match parseVersion version with
  | None => ValueError (py "Invalid version: " ++ version)
  | Some v =>
      match findSection text v with
      | VersionNotFound found => SysExit 1 (not_found_message (raw v) file found)
      | Found section => Printed (section ++ [nl])
      end
  end.

(** ** Lines and positions *)

(** The end of a version token, [(?=\s|$)]: the text stops, or goes on
    with a white space. *)
Definition at_token_end (s : str) : Prop :=
  match s with
  | [] => True
  | c :: _ => is_space c = true
  end.

(** Whether a line starts at index [i] of [text]. *)
Definition line_start_b (text : str) (i : nat) : bool :=
  match i with
  | 0 => true
  | S j => match nth_error text j with Some c => is_nl c | None => false end
  end.

(** The cursor a search over [text] holds when it tries index [i]. *)
Definition at_index (text : str) (i : nat) : cursor :=
  Cursor i (line_start_b text i) [] (skipn i text).

(** A line starts after [pre]: [pre] is empty or ends with a line feed. *)
Definition ends_line (pre : str) : Prop :=
  pre = [] \/ exists p, pre = p ++ [nl].

(** The text [t] does not go on with a character of [p]. *)
Definition stops (p : ascii -> bool) (t : str) : Prop :=
  match t with
  | [] => True
  | c :: _ => p c = false
  end.

(** The longest prefix of [s] made of characters of [p], and what follows. *)
Fixpoint span (p : ascii -> bool) (s : str) : str * str :=
  match s with
  | c :: t => if p c then (c :: fst (span p t), snd (span p t)) else ([], s)
  | [] => ([], [])
  end.

(** The text of [x] goes on with a character of [p]. *)
Definition goes_on (p : ascii -> bool) (x : cursor) : Prop :=
  exists c t, rest x = c :: t /\ p c = true.

(** No white space at either end. *)
Definition no_space_at_head (s : str) : Prop :=
  match s with
  | [] => True
  | c :: _ => is_space c = false
  end.

Definition trimmed (s : str) : Prop :=
  no_space_at_head s /\ no_space_at_head (rev s).

Definition at_end (k : cursor) : bool :=
  match rest k with [] => true | _ => false end.

(** ** Headings and sections *)

(** A non-empty run of white space. *)
Definition spaces (ws : str) : Prop :=
  ws <> [] /\ forallb is_space ws = true.

(** A hyphen and a non-empty run of letters, digits, [.], [+] and [-]. *)
Definition any_suffix (sfx : str) : Prop :=
  exists x, x <> [] /\ forallb is_suffix_char x = true /\ sfx = py "-" ++ x.

(** The version token of a heading for a request with a suffix. *)
Definition exact_token (base suffix : str) (tok : str) : Prop :=
  tok = base ++ py "-" ++ suffix.

(** The version tokens of a heading for a request without suffix. *)
Definition wildcard_token (base : str) (tok : str) : Prop :=
  exists sfx, (sfx = [] \/ any_suffix sfx) /\ tok = base ++ sfx.

(** At index [i] of [text] a line starts with [##], white space and a
    token of [Tok]; the token stops at index [e], where the text ends or
    goes on with a white space. *)
Definition heading_at (text : str) (Tok : str -> Prop) (i e : nat) : Prop :=
  exists pre ws tok post,
    text = pre ++ py "##" ++ ws ++ tok ++ post
    /\ length pre = i /\ ends_line pre /\ spaces ws /\ Tok tok
    /\ at_token_end post
    /\ e = length (pre ++ py "##" ++ ws ++ tok).

(** The tokens a request asks for. *)
Definition requested (base : str) (suffix : option str) : str -> Prop :=
  if truthy suffix then exact_token base (or_empty suffix)
  else wildcard_token base.

(** At index [j] of [text] a line starts with [##] and a white space. *)
Definition heading_start (text : str) (j : nat) : Prop :=
  exists pre c post,
    text = pre ++ py "##" ++ c :: post
    /\ length pre = j /\ ends_line pre /\ is_space c = true.

(** [heading_start], decided. *)
Definition heading_start_b (text : str) (j : nat) : bool :=
  line_start_b text j
  && match skipn j text with
     | a :: b :: c :: _ =>
         Ascii.eqb a "#"%char && Ascii.eqb b "#"%char && is_space c
     | _ => false
     end.

(** [e] is where the section that starts at [start] ends: the first
    index from [start] on at which a line starts with [##] and a white
    space, or the end of the text when there is none. *)
Definition section_end (text : str) (start e : nat) : Prop :=
  start <= e
  /\ (forall j, start <= j < e -> ~ heading_start text j)
  /\ (heading_start text e
      \/ (e = length text /\ forall j, start <= j -> ~ heading_start text j)).

(** Where lines 37-38 put the end of the section that starts at [start]. *)
Definition end_from (text : str) (start : nat) : nat :=
  match search next_header_re (skipn start text) with
  | Some n => start + m_start n
  | None => length text
  end.

(** ** Version strings *)

(** A non-empty run of characters of the class [p]. *)
Definition run_of (p : ascii -> bool) (w : str) : Prop :=
  w <> [] /\ forallb p w = true.

(** Three runs of digits separated by dots. *)
Definition base_string (b : str) : Prop :=
  exists d1 d2 d3,
    run_of is_digit d1 /\ run_of is_digit d2 /\ run_of is_digit d3
    /\ b = d1 ++ py "." ++ d2 ++ py "." ++ d3.

(** [s] reads [\d+\.\d+\.\d+(-[A-Za-z0-9.+-]+)?], with base [b] and
    suffix [x]. *)
Definition version_string (s b : str) (x : option str) : Prop :=
  base_string b
  /\ match x with
     | None => s = b
     | Some x => run_of is_suffix_char x /\ s = b ++ py "-" ++ x
     end.

(** The text of a version with base [b] and suffix [x]. *)
Definition version_text (b : str) (x : option str) : str :=
  match x with
  | None => b
  | Some x => b ++ py "-" ++ x
  end.

(** What follows the base in a version: nothing, or a hyphen and a suffix. *)
Definition suffix_part (x : option str) : str :=
  match x with
  | None => []
  | Some x => py "-" ++ x
  end.

Definition suffix_ok (x : option str) : Prop :=
  match x with
  | None => True
  | Some x => run_of is_suffix_char x
  end.

(** The groups a match of the version pattern leaves. *)
Definition version_groups (b : str) (x : option str) : list (nat * str) :=
  match x with
  | None => [(1, b)]
  | Some x => [(2, x); (1, b)]
  end.

(** The version with suffix [x] is as long as the text allowed: no digit
    and no suffix could be added to it from the text [t] that follows. *)
Definition munched (x : option str) (t : str) : Prop :=
  match x with
  | Some _ => stops is_suffix_char t
  | None =>
      stops is_digit t
      /\ forall c t', t = "-"%char :: c :: t' -> is_suffix_char c = false
  end.

(** The strings the script accepts: any number of [v]s may come first. *)
Definition accepted (version : str) : Prop :=
  exists n r b x,
    version_string r b x /\ strip version = repeat "v"%char n ++ r.

(** ** Patterns as sets of words *)

(** [r] matches exactly the words of [W], whatever precedes or follows,
    and changes nothing but the position. *)
Definition lang (r : re) (W : str -> Prop) : Prop :=
  forall k k',
    In k' (run r k) <->
    exists w t, W w /\ rest k = w ++ t /\ k' = advance k w t.

(** [T] matches the tokens of [Tok], followed by the end of a token. *)
Definition token_lang (T : re) (Tok : str -> Prop) : Prop :=
  forall k k',
    In k' (run T k) <->
    exists tok t, Tok tok /\ rest k = tok ++ t /\ at_token_end t
                  /\ k' = advance k tok t.

(** [\d+\.\d+\.\d+] *)
Definition base_re : re :=
  Plus is_digit >> Lit (py ".") >> Plus is_digit >> Lit (py ".")
  >> Plus is_digit.

(** [\d+\.\d+\.\d+(?:-[A-Za-z0-9.+-]+)?], the group of [available_re]. *)
Definition token_re : re :=
  Plus is_digit >> Lit (py ".") >> Plus is_digit >> Lit (py ".")
  >> Plus is_digit >> Opt (Lit (py "-") >> Plus is_suffix_char).

(** ** The headings of the diagnostic *)

(** At index [i] of [text] a line starts with [##], white space and the
    version [tok], taken as long as the text allows; [e] is the index at
    which the version stops. *)
Definition generic_heading (text : str) (i : nat) (tok : str) (e : nat) : Prop :=
  exists pre ws b x post,
    text = pre ++ py "##" ++ ws ++ tok ++ post
    /\ length pre = i /\ ends_line pre /\ spaces ws
    /\ version_string tok b x /\ munched x post
    /\ e = length (pre ++ py "##" ++ ws ++ tok).

(** A line starts at index [i] with [##], white space and some version. *)
Definition generic_start (text : str) (i : nat) : Prop :=
  exists pre ws tok b x post,
    text = pre ++ py "##" ++ ws ++ tok ++ post
    /\ length pre = i /\ ends_line pre /\ spaces ws
    /\ version_string tok b x.

(** [hs] lists, by increasing index, the index and the version of every
    line from index [i] on that starts with [##], white space and a
    version. *)
Definition headings_from (text : str) (i : nat) (hs : list (nat * str)) : Prop :=
  StronglySorted lt (map fst hs)
  /\ (forall j tok, In (j, tok) hs ->
                    i <= j /\ exists e, generic_heading text j tok e)
  /\ (forall j, i <= j -> generic_start text j -> In j (map fst hs)).

(** ** The specification's reading *)

(** The reading of the specification: the section starts at the first
    character after the line on which the matched token stands. *)
Fixpoint line_rest (s : str) : nat :=
  match s with
  | [] => 0
  | c :: t => if is_nl c then 1 else S (line_rest t)
  end.

Definition after_heading_line (text : str) (e : nat) : nat :=
  e + line_rest (skipn e text).

Definition findSection_as_specified (text : str) (v : version_spec)
  : section_result :=
  match search (header_re (base v) (suffix v)) text with
  | None => VersionNotFound (findall available_re text)
  | Some m =>
      let start := after_heading_line text (m_end m) in
      Found (strip (slice text start (end_from text start)))
  end.

(** The strings the specification accepts: after the surrounding white
    space is stripped, a version string with at most one [v] before it. *)
Definition accepted_as_specified (version : str) : Prop :=
  exists r b x,
    version_string r b x
    /\ (strip version = r \/ strip version = py "v" ++ r).

(** ** Examples *)

(** The request [5.0.2], as [parseVersion] returns it. *)
Definition v502 : version_spec := VersionSpec (py "5.0.2") (py "5.0.2") None.

Definition v503 : version_spec := VersionSpec (py "5.0.3") (py "5.0.3") None.

Definition v502beta1 : version_spec :=
  VersionSpec (py "5.0.2-beta1") (py "5.0.2") (Some (py "beta1")).

Definition v502beta2 : version_spec :=
  VersionSpec (py "5.0.2-beta2") (py "5.0.2") (Some (py "beta2")).

(** The documents of the specification's examples. *)
Definition doc_two : str :=
  py "## 5.0.2" ++ nl :: py "body1" ++ nl :: py "## 5.0.3" ++ nl :: py "body2".

Definition doc_beta : str :=
  py "## 5.0.2-beta1" ++ nl :: py "bodyA" ++ nl :: py "## 5.0.2" ++ nl :: py "bodyB".

Definition doc_dated : str :=
  py "## 5.0.2 (2024-01-01)" ++ nl :: py "body".

Definition doc_last : str :=
  py "## 5.0.1" ++ nl :: py "old" ++ nl :: py "## 5.0.2" ++ nl
  :: py "body" ++ nl :: py "### Fixes" ++ nl :: py "more" ++ [nl].

Definition doc_empty_section : str :=
  py "## 5.0.2" ++ nl :: py "## 5.0.1" ++ nl :: py "old".

Definition doc_dated_empty : str :=
  py "## 5.0.2 (2024-01-01)" ++ nl :: py "## 5.0.1" ++ nl :: py "old".

Definition doc_glued : str := py "## 5.0.3beta" ++ nl :: py "body".

(** ** Requests and their sections *)

(** [s] is the section of the first heading of [text] with a token of
    [Tok]: the text from the end of that token to the next heading, or to
    the end of [text], stripped. *)
Definition section_of (text : str) (Tok : str -> Prop) (s : str) : Prop :=
  exists i start e,
    heading_at text Tok i start
    /\ (forall j e', j < i -> ~ heading_at text Tok j e')
    /\ section_end text start e
    /\ s = strip (slice text start e).

(** Some heading of [text] has a token of [Tok]. *)
Definition has_heading (text : str) (Tok : str -> Prop) : Prop :=
  exists i e, heading_at text Tok i e.

(** The request [v] holds a version string, its base and its suffix. *)
Definition well_formed (v : version_spec) : Prop :=
  version_string (raw v) (base v) (suffix v).

(** * Properties *)

Open Scope re_scope.

(** ** Characters and strings *)

Lemma starts_with_app (p t : str) : starts_with p (p ++ t) = true.
Proof.
  induction p as [|a p IH]; simpl; [reflexivity|].
  rewrite Ascii.eqb_refl. exact IH.
Qed.

Lemma starts_with_inv (p s : str) :
  starts_with p s = true -> s = p ++ skipn (length p) s.
Proof.
  revert s. induction p as [|a p IH]; intros s H; simpl in *; [reflexivity|].
  destruct s as [|b s]; [discriminate|].
  apply andb_prop in H. destruct H as [Hab H].
  apply Ascii.eqb_eq in Hab. subst b. simpl. f_equal. apply IH, H.
Qed.

Lemma skipn_length_app (p t : str) : skipn (length p) (p ++ t) = t.
Proof. induction p; simpl; auto. Qed.

Lemma advance_nil (k : cursor) : advance k [] (rest k) = k.
Proof. destruct k; unfold advance; simpl. f_equal. lia. Qed.

Lemma advance_advance (k : cursor) (l l' t t' : str) :
  advance (advance k l t) l' t' = advance k (l ++ l') t'.
Proof.
  unfold advance; simpl. f_equal.
  - rewrite length_app. lia.
  - rewrite rev_app_distr. destruct (rev l'); reflexivity.
Qed.

(** ** The matcher, construct by construct *)

Lemma run_Lit (l : str) (k k' : cursor) :
  In k' (run (Lit l) k) <-> exists t, rest k = l ++ t /\ k' = advance k l t.
Proof.
  simpl. split.
  - destruct (starts_with l (rest k)) eqn:E; [|intros []].
    intros [<-|[]]. eexists. split; [|reflexivity].
    apply starts_with_inv, E.
  - intros (t & E & ->). rewrite E, starts_with_app, skipn_length_app.
    left. reflexivity.
Qed.

Lemma run_Class (p : ascii -> bool) (k k' : cursor) :
  In k' (run (Class p) k) <->
  exists c t, rest k = c :: t /\ p c = true /\ k' = advance k [c] t.
Proof.
  simpl. split.
  - destruct (rest k) as [|c t]; [intros []|].
    destruct (p c) eqn:E; [|intros []].
    intros [<-|[]]. exists c, t. auto.
  - intros (c & t & -> & -> & ->). left. reflexivity.
Qed.

Lemma many_spec (p : ascii -> bool) (k k' : cursor) (l s : str) :
  In k' (many p k l s) <->
  exists a t, s = a ++ t /\ forallb p a = true /\ k' = advance k (rev l ++ a) t.
Proof.
  revert l. induction s as [|c s IH]; intros l; simpl.
  - split.
    + intros [<-|[]]. exists [], []. rewrite (app_nil_r (rev l)). auto.
    + intros (a & t & E & _ & ->). symmetry in E.
      apply app_eq_nil in E. destruct E as [-> ->].
      rewrite (app_nil_r (rev l)). auto.
  - destruct (p c) eqn:Hc.
    + rewrite in_app_iff, IH. simpl. split.
      * intros [(a & t & -> & Ha & ->)|[<-|[]]].
        -- exists (c :: a), t. simpl. rewrite Hc, Ha, <- app_assoc. auto.
        -- exists [], (c :: s). rewrite (app_nil_r (rev l)). auto.
      * intros (a & t & E & Ha & ->). destruct a as [|c' a]; simpl in *.
        -- subst t. rewrite (app_nil_r (rev l)). auto.
        -- injection E as <- ->. apply andb_prop in Ha. destruct Ha as [_ Ha].
           left. exists a, t. rewrite <- app_assoc. auto.
    + split.
      * intros [<-|[]]. exists [], (c :: s). rewrite (app_nil_r (rev l)). auto.
      * intros (a & t & E & Ha & ->). destruct a as [|c' a]; simpl in *.
        -- subst t. rewrite (app_nil_r (rev l)). auto.
        -- injection E as <- ->. rewrite Hc in Ha. discriminate.
Qed.

Lemma run_Plus (p : ascii -> bool) (k k' : cursor) :
  In k' (run (Plus p) k) <->
  exists a t, a <> [] /\ rest k = a ++ t /\ forallb p a = true
              /\ k' = advance k a t.
Proof.
  simpl. split.
  - destruct (rest k) as [|c s]; [intros []|].
    destruct (p c) eqn:Hc; [|intros []].
    rewrite many_spec. intros (a & t & -> & Ha & ->).
    exists (c :: a), t. simpl. rewrite Hc, Ha. repeat split; congruence.
  - intros (a & t & Hne & -> & Ha & ->).
    destruct a as [|c a]; [congruence|]. simpl in *.
    apply andb_prop in Ha. destruct Ha as [-> Ha].
    apply many_spec. exists a, t. auto.
Qed.

Lemma run_Seq (r1 r2 : re) (k k' : cursor) :
  In k' (run (Seq r1 r2) k) <-> exists x, In x (run r1 k) /\ In k' (run r2 x).
Proof. simpl. apply in_flat_map. Qed.

Lemma run_Opt (r : re) (k k' : cursor) :
  In k' (run (Opt r) k) <-> In k' (run r k) \/ k' = k.
Proof. simpl. rewrite in_app_iff. simpl. intuition congruence. Qed.

Lemma run_Alt (r1 r2 : re) (k k' : cursor) :
  In k' (run (Alt r1 r2) k) <-> In k' (run r1 k) \/ In k' (run r2 k).
Proof. simpl. apply in_app_iff. Qed.

Lemma run_Group (n : nat) (r : re) (k k' : cursor) :
  In k' (run (Group n r) k) <-> exists x, In x (run r k) /\ k' = capture n k x.
Proof. simpl. rewrite in_map_iff. split; intros (x & H1 & H2); eauto. Qed.

Lemma run_Bol (k k' : cursor) :
  In k' (run Bol k) <-> bol k = true /\ k' = k.
Proof.
  simpl. destruct (bol k); simpl; intuition congruence.
Qed.

Lemma run_Look (r : re) (k k' : cursor) :
  In k' (run (Look r) k) <-> (exists x, In x (run r k)) /\ k' = k.
Proof.
  simpl. destruct (run r k) as [|x l]; simpl.
  - split; [intros []|intros [[x []] _]].
  - split; [intros [<-|[]]|intros [_ ->]]; eauto.
Qed.

Lemma run_token_end (k k' : cursor) :
  In k' (run token_end k) <-> at_token_end (rest k) /\ k' = k.
Proof.
  unfold token_end. rewrite run_Look.
  assert (E : (exists x, In x (run (Alt (Class is_space) Eol) k))
              <-> at_token_end (rest k)).
  { split.
    - intros (x & Hx). apply run_Alt in Hx. destruct Hx as [Hx|Hx].
      + apply run_Class in Hx. destruct Hx as (c & t & -> & Hc & _). exact Hc.
      + simpl in Hx. destruct (rest k) as [|c t]; simpl; [exact I|].
        destruct (is_nl c) eqn:E; [|destruct Hx].
        apply Ascii.eqb_eq in E. subst c. reflexivity.
    - intros H. destruct (rest k) as [|c t] eqn:E.
      + exists k. apply run_Alt. right. simpl. rewrite E. left. reflexivity.
      + eexists. apply run_Alt. left. apply run_Class. eauto. }
  rewrite E. reflexivity.
Qed.

(** ** Searching *)

Lemma skipn_step (text : str) (i : nat) (c : ascii) (t : str) :
  skipn i text = c :: t -> nth_error text i = Some c /\ skipn (S i) text = t.
Proof.
  revert i. induction text as [|a text IH]; intros [|i] H; simpl in *;
    try discriminate.
  - injection H as -> ->. auto.
  - apply IH, H.
Qed.

Lemma search_from_spec (r : re) (text : str) (n i : nat) :
  i + n = length text ->
  match search_from r i (line_start_b text i) (skipn i text) with
  | Some m =>
      i <= m_start m <= length text
      /\ (exists l, run r (at_index text (m_start m)) = m_cursor m :: l)
      /\ forall j, i <= j < m_start m -> run r (at_index text j) = []
  | None => forall j, i <= j <= length text -> run r (at_index text j) = []
  end.
Proof.
  revert i. induction n as [|n IH]; intros i Hi.
  - assert (E : skipn i text = []) by (apply skipn_all2; lia).
    rewrite E. simpl.
    destruct (run r (Cursor i (line_start_b text i) [] [])) as [|k l] eqn:R.
    + intros j Hj. assert (j = i) by lia. subst j.
      unfold at_index. rewrite E. exact R.
    + simpl. split; [lia|split].
      * exists l. unfold at_index. rewrite E. exact R.
      * intros j Hj. lia.
  - destruct (skipn i text) as [|c t] eqn:E.
    { apply (f_equal (@length ascii)) in E. rewrite length_skipn in E.
      simpl in E. lia. }
    simpl.
    destruct (run r (Cursor i (line_start_b text i) [] (c :: t))) as [|k l] eqn:R.
    + destruct (skipn_step _ _ _ _ E) as [Hc Ht].
      specialize (IH (S i) ltac:(lia)).
      cbn [line_start_b] in IH. rewrite Hc, Ht in IH.
      destruct (search_from r (S i) (is_nl c) t) as [m|].
      * destruct IH as (H1 & H2 & H3). split; [lia|split; [exact H2|]].
        intros j Hj. destruct (Nat.eq_dec j i) as [->|Hne].
        -- unfold at_index. rewrite E. exact R.
        -- apply H3. lia.
      * intros j Hj. destruct (Nat.eq_dec j i) as [->|Hne].
        -- unfold at_index. rewrite E. exact R.
        -- apply IH. lia.
    + simpl. split; [lia|split].
      * exists l. unfold at_index. rewrite E. exact R.
      * intros j Hj. lia.
Qed.

(** [r.search(text)] finds the least index at which [r] matches, and
    returns the match the engine tries first there. *)
Lemma search_spec (r : re) (text : str) :
  match search r text with
  | Some m =>
      m_start m <= length text
      /\ (exists l, run r (at_index text (m_start m)) = m_cursor m :: l)
      /\ forall j, j < m_start m -> run r (at_index text j) = []
  | None => forall j, j <= length text -> run r (at_index text j) = []
  end.
Proof.
  pose proof (search_from_spec r text (length text) 0 eq_refl) as H.
  unfold search. simpl in H.
  destruct (search_from r 0 true text) as [m|].
  - destruct H as (H1 & H2 & H3). split; [lia|split; [exact H2|]].
    intros j Hj. apply H3. lia.
  - intros j Hj. apply H. lia.
Qed.

Lemma line_start_b_app (pre s : str) :
  line_start_b (pre ++ s) (length pre) = true <-> ends_line pre.
Proof.
  unfold ends_line. destruct pre as [|a pre] using rev_ind.
  - simpl. split; auto.
  - clear IHpre. rewrite length_app. simpl. rewrite Nat.add_comm. simpl.
    rewrite <- app_assoc. rewrite nth_error_app2 by lia.
    rewrite Nat.sub_diag. simpl. split.
    + intros H. apply Ascii.eqb_eq in H. subst a. right. eauto.
    + intros [H|(p & H)].
      * destruct pre; discriminate.
      * apply app_inj_tail in H. destruct H as [_ ->]. reflexivity.
Qed.

Lemma at_index_app (pre s : str) :
  at_index (pre ++ s) (length pre)
  = Cursor (length pre) (line_start_b (pre ++ s) (length pre)) [] s.
Proof. unfold at_index. rewrite skipn_length_app. reflexivity. Qed.

Lemma split_at (text : str) (i : nat) :
  i <= length text ->
  text = firstn i text ++ skipn i text /\ length (firstn i text) = i.
Proof.
  intros H. split; [symmetry; apply firstn_skipn|].
  apply firstn_length_le, H.
Qed.

(** ** Headings *)

Lemma exact_token_lang (base suffix : str) :
  token_lang (Lit base >> Lit (py "-") >> Lit suffix >> token_end)
             (exact_token base suffix).
Proof.
  intros k k'. rewrite run_Seq. split.
  - intros (x1 & H1 & H). apply run_Lit in H1. destruct H1 as (t1 & E1 & ->).
    apply run_Seq in H. destruct H as (x2 & H2 & H).
    apply run_Lit in H2. destruct H2 as (t2 & E2 & ->).
    apply run_Seq in H. destruct H as (x3 & H3 & H).
    apply run_Lit in H3. destruct H3 as (t3 & E3 & ->).
    apply run_token_end in H. destruct H as [He ->]. simpl in *.
    subst t1 t2. exists (base ++ py "-" ++ suffix), t3.
    rewrite !advance_advance, <- !app_assoc. unfold exact_token. auto.
  - intros (tok & t & -> & E & He & ->).
    exists (advance k base (py "-" ++ suffix ++ t)). split.
    { apply run_Lit. exists (py "-" ++ suffix ++ t).
      rewrite E, <- !app_assoc. auto. }
    apply run_Seq. exists (advance k (base ++ py "-") (suffix ++ t)). split.
    { apply run_Lit. exists (suffix ++ t). rewrite advance_advance. auto. }
    apply run_Seq. exists (advance k (base ++ py "-" ++ suffix) t). split.
    { apply run_Lit. exists t. rewrite advance_advance, <- !app_assoc. auto. }
    apply run_token_end. auto.
Qed.

Lemma wildcard_token_lang (base : str) :
  token_lang (Lit base >> Opt (Lit (py "-") >> Plus is_suffix_char) >> token_end)
             (wildcard_token base).
Proof.
  intros k k'. rewrite run_Seq. split.
  - intros (x1 & H1 & H). apply run_Lit in H1. destruct H1 as (t1 & E1 & ->).
    apply run_Seq in H. destruct H as (x2 & H2 & H).
    apply run_token_end in H. destruct H as [He ->].
    apply run_Opt in H2. destruct H2 as [H2| ->].
    + apply run_Seq in H2. destruct H2 as (x3 & H3 & H2).
      apply run_Lit in H3. destruct H3 as (t3 & E3 & ->).
      apply run_Plus in H2. destruct H2 as (a & t & Hne & E & Ha & ->).
      simpl in *. subst t1 t3. exists (base ++ py "-" ++ a), t.
      rewrite !advance_advance, <- !app_assoc. repeat split; auto.
      exists (py "-" ++ a). split; [|reflexivity]. right. exists a. auto.
    + simpl in *. exists base, t1. split; [|auto].
      exists []. rewrite app_nil_r. auto.
  - intros (tok & t & (sfx & Hs & ->) & E & He & ->).
    exists (advance k base (sfx ++ t)). split.
    { apply run_Lit. exists (sfx ++ t). rewrite E, <- app_assoc. auto. }
    apply run_Seq. exists (advance k (base ++ sfx) t). split.
    2:{ apply run_token_end. auto. }
    apply run_Opt. destruct Hs as [->|(x & Hne & Hx & ->)].
    + right. rewrite app_nil_r. reflexivity.
    + left. apply run_Seq. exists (advance k (base ++ py "-") (x ++ t)). split.
      * apply run_Lit. exists (x ++ t). rewrite advance_advance. auto.
      * apply run_Plus. exists x, t. rewrite advance_advance, <- app_assoc.
        auto.
Qed.

Lemma header_token_lang (base : str) (suffix : option str) :
  exists T, header_re base suffix
            = Bol >> Lit (py "##") >> Plus is_space >> T
            /\ token_lang T (requested base suffix).
Proof.
  unfold header_re, requested. destruct (truthy suffix).
  - eexists. split; [reflexivity|]. apply exact_token_lang.
  - eexists. split; [reflexivity|]. apply wildcard_token_lang.
Qed.

Lemma run_heading_prefix (T : re) (k k' : cursor) :
  In k' (run (Bol >> Lit (py "##") >> Plus is_space >> T) k) <->
  bol k = true /\
  exists ws t, spaces ws /\ rest k = py "##" ++ ws ++ t
               /\ In k' (run T (advance k (py "##" ++ ws) t)).
Proof.
  rewrite run_Seq. split.
  - intros (x0 & H0 & H). apply run_Bol in H0. destruct H0 as [Hb ->].
    split; [exact Hb|].
    apply run_Seq in H. destruct H as (x1 & H1 & H).
    apply run_Lit in H1. destruct H1 as (t1 & E1 & ->).
    apply run_Seq in H. destruct H as (x2 & H2 & H).
    apply run_Plus in H2. destruct H2 as (ws & t & Hne & E & Hws & ->).
    simpl in E. subst t1. exists ws, t. rewrite advance_advance in H.
    unfold spaces. auto.
  - intros (Hb & ws & t & (Hne & Hws) & E & H).
    exists k. split; [apply run_Bol; auto|].
    apply run_Seq. exists (advance k (py "##") (ws ++ t)). split.
    { apply run_Lit. eauto. }
    apply run_Seq. exists (advance k (py "##" ++ ws) t). split; [|exact H].
    apply run_Plus. exists ws, t. rewrite advance_advance. auto.
Qed.

Lemma heading_run (T : re) (Tok : str -> Prop) (text : str) (i e : nat) :
  token_lang T Tok ->
  (exists k', In k' (run (Bol >> Lit (py "##") >> Plus is_space >> T)
                         (at_index text i)) /\ pos k' = e)
  <-> heading_at text Tok i e.
Proof.
  intros HT. split.
  - intros (k' & H & <-). apply run_heading_prefix in H.
    destruct H as (Hb & ws & t & Hws & E & H). simpl in Hb, E.
    apply HT in H. destruct H as (tok & post & Htok & E' & He & ->).
    simpl in E'. subst t.
    assert (Hi : i <= length text).
    { destruct (Nat.le_gt_cases i (length text)) as [|Hgt]; [assumption|].
      rewrite skipn_all2 in E by lia. discriminate. }
    destruct (split_at text i Hi) as [Ht Hl].
    exists (firstn i text), ws, tok, post. rewrite E in Ht.
    split; [exact Ht|]. split; [exact Hl|]. split.
    { rewrite <- Hl in Hb. rewrite Ht in Hb at 1.
      apply line_start_b_app in Hb. exact Hb. }
    repeat (split; [assumption|]).
    simpl. rewrite !length_app, Hl. simpl. rewrite length_app. simpl. lia.
  - intros (pre & ws & tok & post & -> & <- & Hpre & Hws & Htok & He & ->).
    eexists. split.
    + apply run_heading_prefix. rewrite at_index_app. simpl. split.
      { apply line_start_b_app, Hpre. }
      exists ws, (tok ++ post). split; [exact Hws|]. split; [reflexivity|].
      apply HT. exists tok, post. simpl. eauto.
    + simpl. rewrite !length_app. simpl. rewrite length_app. simpl. lia.
Qed.

(** What the search for the requested heading finds: the first index, top
    to bottom, at which a heading with a requested token stands. *)
Lemma header_search (text base : str) (suffix : option str) :
  match search (header_re base suffix) text with
  | Some m =>
      heading_at text (requested base suffix) (m_start m) (m_end m)
      /\ forall j e, j < m_start m ->
                     ~ heading_at text (requested base suffix) j e
  | None => forall j e, ~ heading_at text (requested base suffix) j e
  end.
Proof.
  destruct (header_token_lang base suffix) as (T & -> & HT).
  pose proof (search_spec (Bol >> Lit (py "##") >> Plus is_space >> T)%re text) as H.
  destruct (search _ text) as [m|].
  - destruct H as (_ & (l & Hm) & Hlt). split.
    + apply (heading_run T _ text _ _ HT). exists (m_cursor m).
      rewrite Hm. split; [left|]; reflexivity.
    + intros j e Hj Hh. apply (heading_run T _ text _ _ HT) in Hh.
      destruct Hh as (k' & Hk & _). rewrite (Hlt j Hj) in Hk. destruct Hk.
  - intros j e Hh. pose proof Hh as (pre & ws & tok & post & -> & <- & _).
    apply (heading_run T _ _ _ _ HT) in Hh.
    destruct Hh as (k' & Hk & _). rewrite H in Hk; [destruct Hk|].
    rewrite length_app. lia.
Qed.

(** The heading found stops where the text ends or white space follows. *)
Lemma heading_at_token_end (text : str) (Tok : str -> Prop) (i e : nat) :
  heading_at text Tok i e -> e <= length text /\ at_token_end (skipn e text).
Proof.
  intros (pre & ws & tok & post & -> & _ & _ & _ & _ & He & ->).
  assert (E : pre ++ py "##" ++ ws ++ tok ++ post
              = (pre ++ py "##" ++ ws ++ tok) ++ post)
    by (now rewrite <- !app_assoc).
  rewrite E, skipn_length_app. split; [|exact He].
  rewrite (length_app _ post). lia.
Qed.

(** ** The end of a section *)

Lemma heading_start_iff (text : str) (j : nat) :
  heading_start text j <->
  line_start_b text j = true
  /\ exists c t, skipn j text = py "##" ++ c :: t /\ is_space c = true.
Proof.
  split.
  - intros (pre & c & post & -> & <- & Hpre & Hc). split.
    + apply line_start_b_app, Hpre.
    + exists c, post. rewrite skipn_length_app. auto.
  - intros (Hb & c & t & E & Hc).
    assert (Hj : j <= length text).
    { destruct (Nat.le_gt_cases j (length text)) as [|Hgt]; [assumption|].
      rewrite skipn_all2 in E by lia. discriminate. }
    destruct (split_at text j Hj) as [Ht Hl].
    exists (firstn j text), c, t. rewrite E in Ht.
    split; [exact Ht|]. split; [exact Hl|]. split; [|exact Hc].
    rewrite <- Hl in Hb. rewrite Ht in Hb at 1.
    apply line_start_b_app in Hb. exact Hb.
Qed.

Lemma run_next_header (k : cursor) :
  (exists k', In k' (run next_header_re k)) <->
  bol k = true /\ exists c t, rest k = py "##" ++ c :: t /\ is_space c = true.
Proof.
  unfold next_header_re. split.
  - intros (k' & H). apply run_Seq in H. destruct H as (x0 & H0 & H).
    apply run_Bol in H0. destruct H0 as [Hb ->]. split; [exact Hb|].
    apply run_Seq in H. destruct H as (x1 & H1 & H).
    apply run_Lit in H1. destruct H1 as (t1 & E1 & ->).
    apply run_Plus in H. destruct H as (ws & t & Hne & E & Hws & _).
    simpl in E. subst t1. destruct ws as [|c ws]; [congruence|].
    simpl in Hws. apply andb_prop in Hws. exists c, (ws ++ t).
    rewrite E1. tauto.
  - intros (Hb & c & t & E & Hc). eexists.
    apply run_Seq. exists k. split; [apply run_Bol; auto|].
    apply run_Seq. exists (advance k (py "##") (c :: t)). split.
    { apply run_Lit. eauto. }
    apply run_Plus. exists [c], t. simpl. rewrite Hc.
    split; [discriminate|repeat split].
Qed.

Lemma hash_not_space (c : ascii) (t : str) :
  at_token_end (py "##" ++ c :: t) -> False.
Proof. simpl. discriminate. Qed.

(** Index [j] of the slice [text[start:]] is index [start + j] of [text];
    the slice starts a line of its own at 0, which no heading can use
    when the slice starts at the end of a token. *)
Lemma next_header_in_slice (text : str) (start j : nat) :
  at_token_end (skipn start text) ->
  (exists k', In k' (run next_header_re (at_index (skipn start text) j)))
  <-> heading_start text (start + j).
Proof.
  intros He. rewrite run_next_header, heading_start_iff. simpl.
  rewrite skipn_skipn, (Nat.add_comm j start).
  destruct j as [|j].
  - rewrite Nat.add_0_r. split.
    + intros (_ & c & t & E & _). rewrite E in He.
      destruct (hash_not_space c t He).
    + intros (_ & c & t & E & _). rewrite E in He.
      destruct (hash_not_space c t He).
  - simpl. rewrite nth_error_skipn, Nat.add_succ_r. simpl. reflexivity.
Qed.

Lemma heading_start_lt (text : str) (j : nat) :
  heading_start text j -> j < length text.
Proof.
  intros (pre & c & post & -> & <- & _). rewrite length_app. simpl. lia.
Qed.

Lemma next_search (text : str) (start : nat) :
  start <= length text ->
  at_token_end (skipn start text) ->
  section_end text start
    (match search next_header_re (skipn start text) with
     | Some n => start + m_start n
     | None => length text
     end).
Proof.
  intros Hs He.
  pose proof (search_spec next_header_re (skipn start text)) as H.
  destruct (search next_header_re (skipn start text)) as [n|].
  - destruct H as (Hn & (l & Hm) & Hlt). split; [lia|]. split.
    + intros j Hj Hh. replace j with (start + (j - start)) in Hh by lia.
      apply (next_header_in_slice text start _ He) in Hh.
      destruct Hh as (k' & Hk). rewrite Hlt in Hk by lia. destruct Hk.
    + left. apply (next_header_in_slice text start _ He).
      exists (m_cursor n). rewrite Hm. left. reflexivity.
  - assert (Hno : forall j, start <= j -> ~ heading_start text j).
    { intros j Hj Hh. pose proof (heading_start_lt _ _ Hh) as Hlt.
      replace j with (start + (j - start)) in Hh by lia.
      apply (next_header_in_slice text start _ He) in Hh.
      destruct Hh as (k' & Hk). rewrite H in Hk; [destruct Hk|].
      rewrite length_skipn. lia. }
    split; [exact Hs|]. split; [|right; split; [reflexivity|exact Hno]].
    intros j Hj. apply Hno. lia.
Qed.

(** ** Stripping *)

Lemma drop_while_all (p : ascii -> bool) (a t : str) :
  forallb p a = true -> drop_while p (a ++ t) = drop_while p t.
Proof.
  induction a as [|c a IH]; simpl; [reflexivity|].
  intros H. apply andb_prop in H. destruct H as [-> H]. apply IH, H.
Qed.

Lemma drop_while_split (p : ascii -> bool) (s : str) :
  exists a, s = a ++ drop_while p s /\ forallb p a = true.
Proof.
  induction s as [|c s (a & E & Ha)]; simpl.
  - exists []. auto.
  - destruct (p c) eqn:Hc.
    + exists (c :: a). simpl. rewrite Hc, Ha, <- E. auto.
    + exists []. auto.
Qed.

Lemma drop_while_head (s : str) : no_space_at_head (drop_while is_space s).
Proof.
  induction s as [|c s IH]; simpl; [exact I|].
  destruct (is_space c) eqn:Hc; [exact IH|exact Hc].
Qed.

Lemma drop_while_fix (s : str) :
  no_space_at_head s -> drop_while is_space s = s.
Proof. destruct s as [|c s]; simpl; [reflexivity|]. intros ->. reflexivity. Qed.

Lemma forallb_rev (p : ascii -> bool) (s : str) :
  forallb p s = true -> forallb p (rev s) = true.
Proof.
  rewrite !forallb_forall. intros H x Hx. apply H, in_rev, Hx.
Qed.

(** [strip] removes white space at both ends and nothing else. *)
Lemma strip_spec (s : str) :
  exists a b, s = a ++ strip s ++ b
              /\ forallb is_space a = true /\ forallb is_space b = true
              /\ trimmed (strip s).
Proof.
  unfold strip.
  destruct (drop_while_split is_space s) as (a & Ea & Ha).
  pose proof (drop_while_head s) as Hd.
  set (d := drop_while is_space s) in *.
  destruct (drop_while_split is_space (rev d)) as (b & Eb & Hb).
  pose proof (drop_while_head (rev d)) as Hr.
  set (m := drop_while is_space (rev d)) in *.
  assert (Ed : d = rev m ++ rev b).
  { rewrite <- rev_app_distr, <- Eb. symmetry. apply rev_involutive. }
  exists a, (rev b). split; [congruence|]. split; [exact Ha|].
  split; [apply forallb_rev, Hb|]. split.
  - destruct (rev m) as [|c l] eqn:E; [exact I|].
    rewrite Ed in Hd. exact Hd.
  - rewrite rev_involutive. exact Hr.
Qed.

Lemma strip_padded (a m b : str) :
  forallb is_space a = true -> forallb is_space b = true -> trimmed m ->
  strip (a ++ m ++ b) = m.
Proof.
  intros Ha Hb [Hm Hr]. unfold strip. rewrite (drop_while_all _ _ _ Ha).
  destruct m as [|c m].
  - simpl. rewrite <- (app_nil_r b), (drop_while_all _ _ _ Hb). reflexivity.
  - rewrite (drop_while_fix ((c :: m) ++ b)) by exact Hm.
    rewrite rev_app_distr, (drop_while_all _ _ _ (forallb_rev _ _ Hb)).
    rewrite (drop_while_fix (rev (c :: m))) by exact Hr. apply rev_involutive.
Qed.

Lemma strip_spaces (a : str) : forallb is_space a = true -> strip a = [].
Proof.
  intros Ha. rewrite <- (app_nil_r a).
  apply (strip_padded a [] []); [exact Ha|reflexivity|split; exact I].
Qed.

(** ** The section found *)

Lemma findSection_match (text : str) (v : version_spec) (m : match_obj) :
  search (header_re (base v) (suffix v)) text = Some m ->
  findSection text v
  = Found (strip (slice text (m_end m) (end_from text (m_end m)))).
Proof. intros H. unfold findSection, end_from. rewrite H. reflexivity. Qed.

Lemma search_heading (text : str) (v : version_spec) (m : match_obj) :
  search (header_re (base v) (suffix v)) text = Some m ->
  heading_at text (requested (base v) (suffix v)) (m_start m) (m_end m)
  /\ forall j e, j < m_start m ->
                 ~ heading_at text (requested (base v) (suffix v)) j e.
Proof.
  intros H. pose proof (header_search text (base v) (suffix v)) as Hs.
  rewrite H in Hs. exact Hs.
Qed.

Lemma end_from_spec (text : str) (v : version_spec) (m : match_obj) :
  search (header_re (base v) (suffix v)) text = Some m ->
  section_end text (m_end m) (end_from text (m_end m)).
Proof.
  intros H. destruct (search_heading text v m H) as [Hh _].
  destruct (heading_at_token_end _ _ _ _ Hh) as [Hle He].
  apply next_search; assumption.
Qed.

Lemma heading_at_lt (text : str) (Tok : str -> Prop) (i e : nat) :
  heading_at text Tok i e -> i < e.
Proof.
  intros (pre & ws & tok & post & _ & <- & _ & _ & _ & _ & ->).
  rewrite length_app. simpl. lia.
Qed.

Lemma slice_to_end (text : str) (start : nat) :
  slice text start (length text) = skipn start text.
Proof.
  unfold slice. apply firstn_all2. rewrite length_skipn. lia.
Qed.

Lemma forallb_firstn (p : ascii -> bool) (n : nat) (s : str) :
  forallb p s = true -> forallb p (firstn n s) = true.
Proof.
  rewrite !forallb_forall. intros H x Hx. apply H.
  rewrite <- (firstn_skipn n s). apply in_or_app. left. exact Hx.
Qed.

Lemma slice_shorter (text : str) (start e j : nat) :
  e <= j -> slice text start e = firstn (e - start) (slice text start j).
Proof.
  intros H. unfold slice. rewrite firstn_firstn.
  f_equal. lia.
Qed.

(** C1, as stated, fails: the section does not start after the heading
    line but where the version token stops, so what follows the token on
    the heading line is returned with the body. *)
Lemma findSection_keeps_heading_line_text :
  parseVersion (py "5.0.2") = Some v502
  /\ findSection doc_dated v502 = Found (py "(2024-01-01)" ++ nl :: py "body")
  /\ findSection_as_specified doc_dated v502 = Found (py "body")
  /\ findSection doc_dated v502 <> findSection_as_specified doc_dated v502.
Proof.
  split; [vm_compute; reflexivity|].
  split; [vm_compute; reflexivity|].
  split; [vm_compute; reflexivity|].
  vm_compute. discriminate.
Qed.

(** C1, amended: for every document and every matched heading, the section
    starts where the version token of the heading stops (the end of the
    match), and ends at the first index from there on at which a line
    starts with [##] and a white space, or at the end of the document when
    there is none; the result is the text between the two with the white
    space at both ends removed.  What stands on the heading line after
    the version token is part of that text. *)
Theorem findSection_boundaries (text : str) (v : version_spec) (m : match_obj) :
  search (header_re (base v) (suffix v)) text = Some m ->
  heading_at text (requested (base v) (suffix v)) (m_start m) (m_end m)
  /\ exists e s a b,
       section_end text (m_end m) e
       /\ findSection text v = Found s
       /\ slice text (m_end m) e = a ++ s ++ b
       /\ forallb is_space a = true /\ forallb is_space b = true
       /\ trimmed s.
Proof.
  intros H. split; [apply (search_heading text v m H)|].
  exists (end_from text (m_end m)).
  destruct (strip_spec (slice text (m_end m) (end_from text (m_end m))))
    as (a & b & E & Ha & Hb & Ht).
  exists (strip (slice text (m_end m) (end_from text (m_end m)))), a, b.
  split; [apply (end_from_spec text v m H)|].
  split; [apply findSection_match, H|]. auto.
Qed.

(** [findSection_boundaries] on a heading line that carries a date. *)
Lemma findSection_boundaries_witness :
  exists m, search (header_re (base v502) (suffix v502)) doc_dated = Some m
  /\ heading_at doc_dated (requested (base v502) (suffix v502))
                (m_start m) (m_end m)
  /\ exists e s a b,
       section_end doc_dated (m_end m) e
       /\ findSection doc_dated v502 = Found s
       /\ slice doc_dated (m_end m) e = a ++ s ++ b
       /\ forallb is_space a = true /\ forallb is_space b = true
       /\ trimmed s.
Proof.
  eexists. split; [vm_compute; reflexivity|].
  apply (findSection_boundaries doc_dated v502). vm_compute. reflexivity.
Defined.

(** C7: when no line after the matched heading starts with [##] and a
    white space, the section is all the text after the match, up to the
    end of the document, with the white space at both ends removed. *)
Theorem last_section_runs_to_end (text : str) (v : version_spec) (m : match_obj) :
  search (header_re (base v) (suffix v)) text = Some m ->
  (forall j, m_start m < j -> ~ heading_start text j) ->
  findSection text v = Found (strip (skipn (m_end m) text)).
Proof.
  intros H Hlast. rewrite (findSection_match text v m H).
  destruct (search_heading text v m H) as [Hh _].
  pose proof (heading_at_lt _ _ _ _ Hh) as Hlt.
  destruct (end_from_spec text v m H) as (Hle & _ & [Hs|[-> _]]).
  - exfalso. apply (Hlast (end_from text (m_end m))); [lia|exact Hs].
  - rewrite slice_to_end. reflexivity.
Qed.

Lemma heading_start_inv (text : str) (j : nat) :
  heading_start text j -> heading_start_b text j = true.
Proof.
  intros H. apply heading_start_iff in H.
  destruct H as (Hb & c & t & E & Hc). unfold heading_start_b.
  rewrite Hb, E. simpl. exact Hc.
Qed.

(** [last_section_runs_to_end] on a document whose last section holds a
    third-level heading. *)
Lemma last_section_runs_to_end_witness :
  exists m, search (header_re (base v502) (suffix v502)) doc_last = Some m
  /\ (forall j, m_start m < j -> ~ heading_start doc_last j)
  /\ findSection doc_last v502
     = Found (py "body" ++ nl :: py "### Fixes" ++ nl :: py "more").
Proof.
  eexists. split; [vm_compute; reflexivity|].
  assert (Hlast : forall j, 13 < j -> ~ heading_start doc_last j).
  { intros j Hj Hh. pose proof (heading_start_lt _ _ Hh) as Hlt.
    apply heading_start_inv in Hh. vm_compute in Hlt.
    do 14 (destruct j as [|j]; [lia|]).
    do 29 (destruct j as [|j]; [vm_compute in Hh; discriminate|]).
    lia. }
  split; [exact Hlast|].
  rewrite (last_section_runs_to_end doc_last v502 _ eq_refl Hlast).
  vm_compute. reflexivity.
Defined.

(** C10, as stated, fails when the heading line carries text after the
    version token: the line is immediately followed by another heading,
    and the result is that text, not the empty string. *)
Lemma heading_line_text_is_not_empty_section :
  exists m,
    search (header_re (base v502) (suffix v502)) doc_dated_empty = Some m
    /\ heading_start doc_dated_empty
         (after_heading_line doc_dated_empty (m_end m))
    /\ findSection doc_dated_empty v502 = Found (py "(2024-01-01)")
    /\ findSection doc_dated_empty v502 <> Found [].
Proof.
  eexists. split; [vm_compute; reflexivity|]. split.
  - exists (py "## 5.0.2 (2024-01-01)" ++ [nl]), " "%char, (py "5.0.1" ++ nl :: py "old").
    split; [reflexivity|]. split; [reflexivity|]. split; [|reflexivity].
    right. eexists. reflexivity.
  - split; [vm_compute; reflexivity|]. vm_compute. discriminate.
Qed.

(** C10, amended: when only white space stands between the matched version
    token and a following line that starts with [##] and a white space,
    [findSection] succeeds and returns the empty string. *)
Theorem empty_section_is_found (text : str) (v : version_spec) (m : match_obj)
    (j : nat) :
  search (header_re (base v) (suffix v)) text = Some m ->
  m_end m <= j ->
  heading_start text j ->
  forallb is_space (slice text (m_end m) j) = true ->
  findSection text v = Found [].
Proof.
  intros H Hj Hh Hws. rewrite (findSection_match text v m H). f_equal.
  destruct (end_from_spec text v m H) as (Hle & Hno & _).
  assert (He : end_from text (m_end m) <= j).
  { destruct (Nat.le_gt_cases (end_from text (m_end m)) j) as [|Hgt];
      [assumption|].
    exfalso. apply (Hno j); [lia|exact Hh]. }
  apply strip_spaces. rewrite (slice_shorter text _ _ j He).
  apply forallb_firstn, Hws.
Qed.

(** [empty_section_is_found] on two headings that follow each other. *)
Lemma empty_section_is_found_witness :
  exists m,
    search (header_re (base v502) (suffix v502)) doc_empty_section = Some m
    /\ m_end m <= 9
    /\ heading_start doc_empty_section 9
    /\ forallb is_space (slice doc_empty_section (m_end m) 9) = true
    /\ findSection doc_empty_section v502 = Found [].
Proof.
  eexists. split; [vm_compute; reflexivity|].
  assert (H9 : heading_start doc_empty_section 9).
  { exists (py "## 5.0.2" ++ [nl]), " "%char, (py "5.0.1" ++ nl :: py "old").
    split; [reflexivity|]. split; [reflexivity|]. split; [|reflexivity].
    right. eexists. reflexivity. }
  split; [vm_compute; lia|]. split; [exact H9|].
  split; [vm_compute; reflexivity|].
  apply (empty_section_is_found doc_empty_section v502 _ 9 eq_refl);
    [vm_compute; lia|exact H9|vm_compute; reflexivity].
Defined.

(** ** Which heading is matched *)

(** The result of [findSection], in full: the section after the first
    heading with a requested token, or no such heading anywhere. *)
Lemma findSection_spec (text : str) (v : version_spec) :
  match findSection text v with
  | Found s =>
      exists i start e,
        heading_at text (requested (base v) (suffix v)) i start
        /\ (forall j e', j < i ->
                         ~ heading_at text (requested (base v) (suffix v)) j e')
        /\ section_end text start e
        /\ s = strip (slice text start e)
  | VersionNotFound found =>
      found = findall available_re text
      /\ forall j e, ~ heading_at text (requested (base v) (suffix v)) j e
  end.
Proof.
  destruct (search (header_re (base v) (suffix v)) text) as [m|] eqn:H.
  - rewrite (findSection_match text v m H).
    destruct (search_heading text v m H) as [Hh Hfirst].
    exists (m_start m), (m_end m), (end_from text (m_end m)).
    split; [exact Hh|]. split; [exact Hfirst|].
    split; [apply (end_from_spec text v m H)|reflexivity].
  - unfold findSection. rewrite H. split; [reflexivity|].
    pose proof (header_search text (base v) (suffix v)) as Hs.
    rewrite H in Hs. exact Hs.
Qed.

(** C6: in the document [## 5.0.2], [body1], [## 5.0.3], [body2], the
    request [5.0.2] returns [body1] and the request [5.0.3] returns
    [body2]. *)
Theorem two_sections_example :
  parseVersion (py "5.0.2") = Some v502
  /\ findSection doc_two v502 = Found (py "body1")
  /\ parseVersion (py "5.0.3") = Some v503
  /\ findSection doc_two v503 = Found (py "body2")
  /\ forall file,
       main (py "5.0.2") file doc_two = Printed (py "body1" ++ [nl])
       /\ main (py "5.0.3") file doc_two = Printed (py "body2" ++ [nl]).
Proof.
  repeat split; vm_compute; reflexivity.
Qed.

(** C4: for a request without suffix, [findSection] takes the first index,
    top to bottom, at which a line starts with [##], white space, the base,
    an optional hyphen and run of suffix characters, and then the end of
    the text or a white space; when no index has such a heading it reports
    that the version is not found.  In the document [## 5.0.2-beta1],
    [bodyA], [## 5.0.2], [bodyB] the request [5.0.2] returns [bodyA]. *)
Theorem wildcard_request_takes_first_heading :
  (forall (text raw base : str),
      match findSection text (VersionSpec raw base None) with
      | Found s =>
          exists i start e,
            heading_at text (wildcard_token base) i start
            /\ (forall j e', j < i ->
                             ~ heading_at text (wildcard_token base) j e')
            /\ section_end text start e
            /\ s = strip (slice text start e)
      | VersionNotFound _ =>
          forall j e, ~ heading_at text (wildcard_token base) j e
      end)
  /\ parseVersion (py "5.0.2") = Some v502
  /\ findSection doc_beta v502 = Found (py "bodyA").
Proof.
  split; [|split; vm_compute; reflexivity].
  intros text raw base.
  pose proof (findSection_spec text (VersionSpec raw base None)) as H.
  destruct (findSection text (VersionSpec raw base None)); [exact H|].
  destruct H as [_ H]. exact H.
Qed.

(** C5: for a request with a suffix, [findSection] takes the first index at
    which a line starts with [##], white space and exactly
    [<base>-<suffix>], followed by the end of the text or a white space,
    and reports that the version is not found when no index has such a
    heading.  In the document [## 5.0.2-beta1], [bodyA], [## 5.0.2],
    [bodyB] the request [5.0.2-beta1] returns [bodyA], and the requests
    [5.0.2-beta2] and [5.0.2-beta] are not found. *)
Theorem suffixed_request_is_exact :
  (forall (text raw base : str) (c : ascii) (sfx : str),
      match findSection text (VersionSpec raw base (Some (c :: sfx))) with
      | Found s =>
          exists i start e,
            heading_at text (exact_token base (c :: sfx)) i start
            /\ (forall j e', j < i ->
                  ~ heading_at text (exact_token base (c :: sfx)) j e')
            /\ section_end text start e
            /\ s = strip (slice text start e)
      | VersionNotFound _ =>
          forall j e, ~ heading_at text (exact_token base (c :: sfx)) j e
      end)
  /\ parseVersion (py "5.0.2-beta1") = Some v502beta1
  /\ findSection doc_beta v502beta1 = Found (py "bodyA")
  /\ parseVersion (py "5.0.2-beta2") = Some v502beta2
  /\ findSection doc_beta v502beta2
     = VersionNotFound [py "5.0.2-beta1"; py "5.0.2"]
  /\ findSection doc_beta (VersionSpec (py "5.0.2-beta") (py "5.0.2")
                                       (Some (py "beta")))
     = VersionNotFound [py "5.0.2-beta1"; py "5.0.2"]
  /\ forall file, exists err,
       main (py "5.0.2-beta2") file doc_beta = SysExit 1 err.
Proof.
  split.
  - intros text raw base c sfx.
    pose proof (findSection_spec text (VersionSpec raw base (Some (c :: sfx))))
      as H.
    destruct (findSection text _); [exact H|].
    destruct H as [_ H]. exact H.
  - repeat split; try (vm_compute; reflexivity).
    intros file. eexists. unfold main.
    replace (parseVersion (py "5.0.2-beta2")) with (Some v502beta2)
      by (vm_compute; reflexivity).
    replace (findSection doc_beta v502beta2)
      with (VersionNotFound [py "5.0.2-beta1"; py "5.0.2"])
      by (vm_compute; reflexivity).
    reflexivity.
Qed.

(** ** Patterns as sets of words *)

Lemma lang_Lit (l : str) : lang (Lit l) (eq l).
Proof.
  intros k k'. rewrite run_Lit. split.
  - intros (t & E & ->). exists l, t. auto.
  - intros (w & t & <- & E & ->). eauto.
Qed.

Lemma lang_Plus (p : ascii -> bool) : lang (Plus p) (run_of p).
Proof.
  intros k k'. rewrite run_Plus. unfold run_of. split.
  - intros (a & t & Hne & E & Ha & ->). exists a, t. auto.
  - intros (w & t & (Hne & Hw) & E & ->). exists w, t. auto.
Qed.

Lemma lang_Seq (r1 r2 : re) (W1 W2 : str -> Prop) :
  lang r1 W1 -> lang r2 W2 ->
  lang (Seq r1 r2) (fun w => exists a b, W1 a /\ W2 b /\ w = a ++ b).
Proof.
  intros H1 H2 k k'. rewrite run_Seq. split.
  - intros (x & Hx & Hk). apply H1 in Hx. destruct Hx as (a & t & Ha & E & ->).
    apply H2 in Hk. destruct Hk as (b & t' & Hb & E' & ->). simpl in E'.
    exists (a ++ b), t'. rewrite advance_advance, <- app_assoc, <- E'.
    split; [|auto]. exists a, b. auto.
  - intros (w & t & (a & b & Ha & Hb & ->) & E & ->).
    rewrite <- app_assoc in E. exists (advance k a (b ++ t)). split.
    + apply H1. exists a, (b ++ t). auto.
    + apply H2. exists b, t. rewrite advance_advance. auto.
Qed.

Lemma lang_Opt (r : re) (W : str -> Prop) :
  lang r W -> lang (Opt r) (fun w => W w \/ w = []).
Proof.
  intros H k k'. rewrite run_Opt. split.
  - intros [Hk| ->].
    + apply H in Hk. destruct Hk as (w & t & Hw & E & ->). exists w, t. auto.
    + exists [], (rest k). rewrite advance_nil. auto.
  - intros (w & t & [Hw| ->] & E & ->).
    + left. apply H. exists w, t. auto.
    + right. simpl in E. subst t. apply advance_nil.
Qed.

Lemma lang_ext (r : re) (W W' : str -> Prop) :
  lang r W -> (forall w, W w <-> W' w) -> lang r W'.
Proof.
  intros H HW k k'. rewrite (H k k'). split.
  - intros (w & t & Hw & E). exists w, t. split; [apply HW, Hw|exact E].
  - intros (w & t & Hw & E). exists w, t. split; [apply HW, Hw|exact E].
Qed.

(** ** Version strings *)

Lemma base_re_lang : lang base_re base_string.
Proof.
  eapply lang_ext.
  - unfold base_re.
    repeat first [apply lang_Seq | apply lang_Plus | apply lang_Lit].
  - intros w. unfold base_string. split.
    + intros (d1 & w1 & H1 & (p1 & w2 & <- & (d2 & w3 & H2 & (p2 & d3 & <- & H3 & ->) & ->) & ->) & ->).
      exists d1, d2, d3. auto.
    + intros (d1 & d2 & d3 & H1 & H2 & H3 & ->).
      exists d1, (py "." ++ d2 ++ py "." ++ d3). split; [exact H1|].
      split; [|reflexivity].
      exists (py "."), (d2 ++ py "." ++ d3). split; [reflexivity|].
      split; [|reflexivity].
      exists d2, (py "." ++ d3). split; [exact H2|]. split; [|reflexivity].
      exists (py "."), d3. auto.
Qed.

Lemma firstn_length_app (w t : str) : firstn (length w) (w ++ t) = w.
Proof. induction w; simpl; [reflexivity|]. f_equal. assumption. Qed.

Lemma capture_advance (n : nat) (k : cursor) (w t : str) :
  rest k = w ++ t ->
  rest (capture n k (advance k w t)) = t
  /\ groups (capture n k (advance k w t)) = (n, w) :: groups k.
Proof.
  intros E. unfold capture, advance. simpl. split; [reflexivity|].
  rewrite E, Nat.add_comm, Nat.add_sub, firstn_length_app. reflexivity.
Qed.

Lemma version_string_text (s b : str) (x : option str) :
  version_string s b x <->
  base_string b /\ suffix_ok x /\ s = version_text b x.
Proof. unfold version_string. destruct x; simpl; tauto. Qed.

Lemma version_re_unfold :
  version_re
  = Seq (Group 1 base_re) (Opt (Seq (Lit (py "-")) (Group 2 (Plus is_suffix_char)))).
Proof. reflexivity. Qed.

Lemma run_version_sound (k k' : cursor) :
  In k' (run version_re k) ->
  exists b x,
    base_string b /\ suffix_ok x
    /\ rest k = version_text b x ++ rest k'
    /\ groups k' = version_groups b x ++ groups k.
Proof.
  rewrite version_re_unfold. intros H.
  apply run_Seq in H. destruct H as (x1 & H1 & H).
  apply run_Group in H1. destruct H1 as (x0 & H0 & ->).
  apply base_re_lang in H0. destruct H0 as (b & t1 & Hb & E1 & ->).
  destruct (capture_advance 1 k b t1 E1) as [Er Eg].
  apply run_Opt in H. destruct H as [H| ->].
  - apply run_Seq in H. destruct H as (x2 & H2 & H).
    apply run_Lit in H2. destruct H2 as (t2 & E2 & ->).
    apply run_Group in H. destruct H as (x3 & H3 & ->).
    apply lang_Plus in H3. destruct H3 as (x & t & Hx & E3 & ->).
    simpl in E3.
    destruct (capture_advance 2 (advance (capture 1 k (advance k b t1))
                                         (py "-") t2) x t E3) as [Er' Eg'].
    exists b, (Some x). split; [exact Hb|]. split; [exact Hx|].
    rewrite Er', Eg'. simpl. split.
    + rewrite E1. rewrite Er in E2. rewrite E2, E3, <- app_assoc. reflexivity.
    + simpl in Eg. rewrite Eg. reflexivity.
  - exists b, None. split; [exact Hb|]. split; [exact I|].
    rewrite Er, Eg. auto.
Qed.

Lemma run_version_complete (k : cursor) (b : str) (x : option str) (t : str) :
  base_string b -> suffix_ok x -> rest k = version_text b x ++ t ->
  exists k', In k' (run version_re k) /\ rest k' = t.
Proof.
  intros Hb Hx E. rewrite version_re_unfold.
  destruct x as [x|]; cbn [version_text suffix_ok] in *.
  - rewrite <- !app_assoc in E.
    destruct (capture_advance 1 k b _ E) as [Er Eg].
    set (x1 := capture 1 k (advance k b (py "-" ++ x ++ t))) in *.
    assert (E2 : rest (advance x1 (py "-") (x ++ t)) = x ++ t) by reflexivity.
    destruct (capture_advance 2 _ x t E2) as [Er' Eg'].
    eexists. split; [|exact Er'].
    apply run_Seq. exists x1. split.
    + apply run_Group. eexists. split; [|reflexivity].
      apply base_re_lang. exists b, (py "-" ++ x ++ t). auto.
    + apply run_Opt. left. apply run_Seq.
      exists (advance x1 (py "-") (x ++ t)). split.
      * apply run_Lit. exists (x ++ t). auto.
      * apply run_Group. eexists. split; [|reflexivity].
        apply lang_Plus. exists x, t. auto.
  - destruct (capture_advance 1 k b t E) as [Er Eg].
    eexists. split; [|exact Er].
    apply run_Seq. eexists. split.
    + apply run_Group. eexists. split; [|reflexivity].
      apply base_re_lang. exists b, t. auto.
    + apply run_Opt. right. reflexivity.
Qed.

Lemma span_unique (p : ascii -> bool) (a a' t t' : str) :
  forallb p a = true -> forallb p a' = true -> stops p t -> stops p t' ->
  a ++ t = a' ++ t' -> a = a' /\ t = t'.
Proof.
  revert a'. induction a as [|c a IH]; intros [|c' a'] Ha Ha' Ht Ht' E;
    simpl in *.
  - auto.
  - subst t. simpl in Ht. apply andb_prop in Ha'. destruct Ha' as [Hc _].
    congruence.
  - subst t'. simpl in Ht'. apply andb_prop in Ha. destruct Ha as [Hc _].
    congruence.
  - injection E as -> E. apply andb_prop in Ha. apply andb_prop in Ha'.
    destruct (IH a' (proj2 Ha) (proj2 Ha') Ht Ht' E) as [-> ->]. auto.
Qed.

Lemma version_text_parts (b : str) (x : option str) :
  version_text b x = b ++ suffix_part x.
Proof. destruct x; simpl; [reflexivity|]. symmetry. apply app_nil_r. Qed.

Lemma suffix_part_stops (x : option str) : stops is_digit (suffix_part x).
Proof. destruct x; simpl; [reflexivity|exact I]. Qed.

Lemma base_split_unique (b b' t t' : str) :
  base_string b -> base_string b' -> stops is_digit t -> stops is_digit t' ->
  b ++ t = b' ++ t' -> b = b' /\ t = t'.
Proof.
  intros (d1 & d2 & d3 & [_ H1] & [_ H2] & [_ H3] & ->)
         (e1 & e2 & e3 & [_ G1] & [_ G2] & [_ G3] & ->) Ht Ht' E.
  rewrite <- !app_assoc in E.
  apply (span_unique is_digit) in E; try assumption; try reflexivity.
  destruct E as [-> E]. simpl in E. injection E as E.
  apply (span_unique is_digit) in E; try assumption; try reflexivity.
  destruct E as [-> E]. simpl in E. injection E as E.
  apply (span_unique is_digit) in E; try assumption.
  destruct E as [-> ->]. auto.
Qed.

(** A version string has one base and one suffix. *)
Lemma version_string_unique (s b b' : str) (x x' : option str) :
  version_string s b x -> version_string s b' x' -> b = b' /\ x = x'.
Proof.
  rewrite !version_string_text, !version_text_parts.
  intros (Hb & _ & ->) (Hb' & _ & E).
  apply base_split_unique in E; try assumption; try apply suffix_part_stops.
  destruct E as [-> E]. split; [reflexivity|].
  destruct x as [x|], x' as [x'|]; simpl in E; try discriminate; congruence.
Qed.

Lemma filter_head (f : cursor -> bool) (l : list cursor) :
  match filter f l with
  | k :: _ => In k l /\ f k = true
  | [] => forall k, In k l -> f k = false
  end.
Proof.
  destruct (filter f l) as [|k t] eqn:E.
  - intros k Hk. destruct (f k) eqn:Hf; [|reflexivity].
    assert (H : In k (filter f l)) by (apply filter_In; auto).
    rewrite E in H. destruct H.
  - apply filter_In. rewrite E. left. reflexivity.
Qed.

Lemma at_end_iff (k : cursor) : at_end k = true <-> rest k = [].
Proof. unfold at_end. destruct (rest k); split; congruence. Qed.

Lemma assoc_version_groups (b : str) (x : option str) :
  assoc 1 (version_groups b x ++ []) = Some b
  /\ assoc 2 (version_groups b x ++ []) = x.
Proof. destruct x; simpl; auto. Qed.

(** [re.fullmatch] with the version pattern accepts the version strings,
    and its groups are their base and suffix. *)
Lemma fullmatch_version (s : str) :
  match fullmatch version_re s with
  | Some m =>
      exists b x, version_string s b x
                  /\ group m 1 = Some b /\ group m 2 = x
  | None => forall b x, ~ version_string s b x
  end.
Proof.
  unfold fullmatch. fold at_end.
  pose proof (filter_head at_end (run version_re (cursor0 s))) as H.
  destruct (filter at_end (run version_re (cursor0 s))) as [|k l].
  - intros b x Hv. apply version_string_text in Hv.
    destruct Hv as (Hb & Hx & E).
    destruct (run_version_complete (cursor0 s) b x [] Hb Hx) as (k' & Hk & Er).
    { simpl. rewrite app_nil_r. exact E. }
    apply H in Hk. apply at_end_iff in Er. congruence.
  - destruct H as [Hk He]. apply at_end_iff in He.
    apply run_version_sound in Hk.
    destruct Hk as (b & x & Hb & Hx & E & Eg).
    rewrite He, app_nil_r in E. simpl in E.
    exists b, x. split; [apply version_string_text; auto|].
    unfold group. simpl. rewrite Eg. apply assoc_version_groups.
Qed.

(** What [parseVersion] accepts, and what it returns. *)
Lemma parseVersion_spec (version : str) :
  match parseVersion version with
  | Some v =>
      raw v = lstrip (py "v") (strip version)
      /\ version_string (raw v) (base v) (suffix v)
  | None =>
      forall b x, ~ version_string (lstrip (py "v") (strip version)) b x
  end.
Proof.
  unfold parseVersion.
  pose proof (fullmatch_version (lstrip (py "v") (strip version))) as H.
  destruct (fullmatch version_re (lstrip (py "v") (strip version))) as [m|].
  - destruct H as (b & x & Hv & -> & ->). simpl. auto.
  - exact H.
Qed.

(** ** The leading [v] *)

Lemma suffix_char_not_space (c : ascii) :
  is_suffix_char c = true -> is_space c = false.
Proof.
  destruct c as [[] [] [] [] [] [] [] []]; intros H;
    first [reflexivity | discriminate H].
Qed.

Lemma digit_is_suffix_char (c : ascii) :
  is_digit c = true -> is_suffix_char c = true.
Proof.
  unfold is_digit, is_suffix_char. intros ->.
  rewrite orb_true_r. reflexivity.
Qed.

Lemma digit_not_v (c : ascii) :
  is_digit c = true -> existsb (Ascii.eqb c) (py "v") = false.
Proof.
  intros H. simpl. destruct (Ascii.eqb_spec c "v"%char) as [->|_];
    [discriminate H|reflexivity].
Qed.

Lemma run_of_head (p : ascii -> bool) (w : str) :
  run_of p w -> exists c t, w = c :: t /\ p c = true.
Proof.
  intros [Hne Hw]. destruct w as [|c t]; [congruence|].
  simpl in Hw. apply andb_prop in Hw. exists c, t. tauto.
Qed.

Lemma run_of_last (p : ascii -> bool) (w : str) :
  run_of p w -> exists c t, rev w = c :: t /\ p c = true.
Proof.
  intros [Hne Hw]. apply run_of_head. split.
  - intros E. apply Hne. rewrite <- (rev_involutive w), E. reflexivity.
  - apply forallb_rev, Hw.
Qed.

Lemma version_string_head (s b : str) (x : option str) :
  version_string s b x -> exists c t, s = c :: t /\ is_digit c = true.
Proof.
  rewrite version_string_text, version_text_parts.
  intros ((d1 & d2 & d3 & H1 & _ & _ & ->) & _ & ->).
  destruct (run_of_head _ _ H1) as (c & t & -> & Hc).
  exists c. eexists. split; [reflexivity|exact Hc].
Qed.

Lemma rev_app_head (a w t : str) (c : ascii) :
  rev w = c :: t -> rev (a ++ w) = c :: t ++ rev a.
Proof. intros E. rewrite rev_app_distr, E. reflexivity. Qed.

Lemma version_string_last (s b : str) (x : option str) :
  version_string s b x ->
  exists c t, rev s = c :: t /\ is_suffix_char c = true.
Proof.
  rewrite version_string_text.
  intros ((d1 & d2 & d3 & _ & _ & H3 & ->) & Hx & ->).
  destruct x as [x|]; cbn [version_text suffix_ok] in *.
  - destruct (run_of_last _ _ Hx) as (c & t & E & Hc).
    exists c. eexists. split; [|exact Hc].
    rewrite (app_assoc _ (py "-") x). apply rev_app_head, E.
  - destruct (run_of_last _ _ H3) as (c & t & E & Hc).
    exists c. eexists. split; [|apply digit_is_suffix_char, Hc].
    rewrite !app_assoc. apply rev_app_head, E.
Qed.

Lemma lstrip_v_run (n : nat) (s b : str) (x : option str) :
  version_string s b x ->
  lstrip (py "v") (repeat "v"%char n ++ s) = s.
Proof.
  intros Hv. unfold lstrip. rewrite drop_while_all.
  - destruct (version_string_head _ _ _ Hv) as (c & t & -> & Hc).
    cbn [drop_while]. rewrite (digit_not_v c Hc). reflexivity.
  - induction n; simpl; auto.
Qed.

Lemma v_run_trimmed (n : nat) (s b : str) (x : option str) :
  version_string s b x -> trimmed (repeat "v"%char n ++ s).
Proof.
  intros Hv. split.
  - destruct n as [|n]; simpl; [|reflexivity].
    destruct (version_string_head _ _ _ Hv) as (c & t & -> & Hc).
    simpl. apply suffix_char_not_space, digit_is_suffix_char, Hc.
  - destruct (version_string_last _ _ _ Hv) as (c & t & E & Hc).
    rewrite rev_app_distr, E. simpl. apply suffix_char_not_space, Hc.
Qed.

Lemma v502_string : version_string (py "5.0.2") (py "5.0.2") None.
Proof.
  split; [|reflexivity].
  exists (py "5"), (py "0"), (py "2").
  repeat split; discriminate.
Qed.

(** C3, as stated, fails for the capital letter: [V5.0.2] is refused,
    though [5.0.2] is a valid version string that parses. *)
Lemma capital_V_is_refused :
  version_string (py "5.0.2") (py "5.0.2") None
  /\ parseVersion (py "5.0.2") = Some v502
  /\ parseVersion (py "V5.0.2") = None.
Proof.
  split; [exact v502_string|]. split; vm_compute; reflexivity.
Qed.

(** C3, amended: [parseVersion] strips the surrounding white space and
    then every leading lower-case [v]; for every valid version string,
    with or without white space around it and lower-case [v]s before it,
    the parse succeeds and recovers the base and the suffix of the string
    itself.  A capital [V] is not stripped. *)
Theorem lowercase_v_prefix_is_stripped (s b : str) (x : option str) (n : nat)
    (a z : str) :
  version_string s b x ->
  forallb is_space a = true ->
  forallb is_space z = true ->
  parseVersion (a ++ repeat "v"%char n ++ s ++ z) = Some (VersionSpec s b x).
Proof.
  intros Hv Ha Hz.
  assert (Hraw : lstrip (py "v") (strip (a ++ repeat "v"%char n ++ s ++ z)) = s).
  { rewrite (app_assoc (repeat "v"%char n) s z).
    rewrite (strip_padded a _ z Ha Hz (v_run_trimmed n s b x Hv)).
    apply (lstrip_v_run n s b x Hv). }
  pose proof (parseVersion_spec (a ++ repeat "v"%char n ++ s ++ z)) as H.
  rewrite Hraw in H.
  destruct (parseVersion (a ++ repeat "v"%char n ++ s ++ z)) as [v|].
  - destruct H as [Er Hv']. destruct v as [r b' x']. simpl in *. subst r.
    destruct (version_string_unique _ _ _ _ _ Hv Hv') as [-> ->]. reflexivity.
  - destruct (H b x Hv).
Qed.

(** [lowercase_v_prefix_is_stripped] on [v5.0.2] between a space and a
    line feed. *)
Lemma lowercase_v_prefix_is_stripped_witness :
  version_string (py "5.0.2") (py "5.0.2") None
  /\ forallb is_space (py " ") = true
  /\ forallb is_space [nl] = true
  /\ parseVersion (py " " ++ repeat "v"%char 1 ++ py "5.0.2" ++ [nl])
     = Some (VersionSpec (py "5.0.2") (py "5.0.2") None).
Proof.
  split; [exact v502_string|]. split; [reflexivity|]. split; [reflexivity|].
  apply (lowercase_v_prefix_is_stripped (py "5.0.2") (py "5.0.2") None 1
           (py " ") [nl] v502_string); reflexivity.
Defined.

(** C2, as stated, fails: [vv5.0.2] does not match the pattern with at
    most one leading [v], and is parsed all the same. *)
Lemma double_v_is_accepted :
  ~ accepted_as_specified (py "vv5.0.2")
  /\ parseVersion (py "vv5.0.2") = Some v502.
Proof.
  split; [|vm_compute; reflexivity].
  intros (r & b & x & Hv & E).
  destruct (version_string_head _ _ _ Hv) as (c & t & -> & Hc).
  vm_compute in E.
  destruct E as [E|E]; injection E as <-; discriminate Hc.
Qed.

Lemma accepted_iff (version : str) :
  accepted version <->
  exists b x, version_string (lstrip (py "v") (strip version)) b x.
Proof.
  split.
  - intros (n & r & b & x & Hv & ->). exists b, x.
    rewrite (lstrip_v_run n r b x Hv). exact Hv.
  - intros (b & x & Hv).
    destruct (drop_while_split (fun c => existsb (Ascii.eqb c) (py "v"))
                               (strip version)) as (a & E & Ha).
    exists (length a), (lstrip (py "v") (strip version)), b, x.
    split; [exact Hv|]. rewrite E at 1. f_equal.
    clear E. induction a as [|c a IH]; simpl in *; [reflexivity|].
    apply andb_prop in Ha. destruct Ha as [Hc Ha].
    rewrite orb_false_r in Hc. apply Ascii.eqb_eq in Hc. subst c.
    f_equal. apply IH, Ha.
Qed.

(** C2, amended: [parseVersion] fails exactly on the strings that, once
    the surrounding white space is stripped, are not a version string
    [\d+\.\d+\.\d+(-[A-Za-z0-9.+-]+)?] preceded by any number of
    lower-case [v]s.  So [vv5.0.2] parses, while a string with two
    number groups, with letters for numbers, with an empty suffix or with
    a character the suffix may not hold fails. *)
Theorem parseVersion_fails_iff_not_accepted :
  (forall version, parseVersion version = None <-> ~ accepted version)
  /\ parseVersion (py "vv5.0.2") = Some v502
  /\ parseVersion (py "5.0") = None
  /\ parseVersion (py "a.b.c") = None
  /\ parseVersion (py "5.0.2-") = None
  /\ parseVersion (py "5.0.2-rc_1") = None
  /\ parseVersion (py "v 5.0.2") = None.
Proof.
  split; [|repeat split; vm_compute; reflexivity].
  intros version. rewrite accepted_iff.
  pose proof (parseVersion_spec version) as H.
  destruct (parseVersion version) as [v|].
  - destruct H as [Er Hv]. split; [discriminate|].
    intros Hn. exfalso. apply Hn. exists (base v), (suffix v).
    rewrite <- Er. exact Hv.
  - split; [|reflexivity]. intros _ (b & x & Hv). apply (H b x Hv).
Qed.

(** ** The first way of matching *)

Lemma span_spec (p : ascii -> bool) (s : str) :
  s = fst (span p s) ++ snd (span p s)
  /\ forallb p (fst (span p s)) = true
  /\ stops p (snd (span p s)).
Proof.
  induction s as [|c s (E & Ha & Hs)]; simpl; [auto|].
  destruct (p c) eqn:Hc; simpl.
  - rewrite Hc, Ha, <- E. auto.
  - auto.
Qed.

Lemma many_head (p : ascii -> bool) (k : cursor) (l s : str) :
  exists l',
    many p k l s
    = advance k (rev l ++ fst (span p s)) (snd (span p s)) :: l'
    /\ forall x, In x l' -> goes_on p x.
Proof.
  revert l. induction s as [|c s IH]; intros l; simpl.
  - exists []. rewrite app_nil_r. split; [reflexivity|intros x []].
  - destruct (p c) eqn:Hc; simpl.
    + destruct (IH (c :: l)) as (l' & E & Hl'). rewrite E. simpl.
      rewrite <- app_assoc. simpl.
      exists (l' ++ [advance k (rev l) (c :: s)]). split; [reflexivity|].
      intros x Hx. apply in_app_or in Hx. destruct Hx as [Hx|[<-|[]]].
      * apply Hl', Hx.
      * exists c, s. auto.
    + exists []. rewrite app_nil_r. split; [reflexivity|intros x []].
Qed.

Lemma run_Plus_head (p : ascii -> bool) (k : cursor) :
  match fst (span p (rest k)) with
  | [] => run (Plus p) k = []
  | _ :: _ =>
      exists l',
        run (Plus p) k
        = advance k (fst (span p (rest k))) (snd (span p (rest k))) :: l'
        /\ forall x, In x l' -> goes_on p x
  end.
Proof.
  simpl. destruct (rest k) as [|c t]; simpl; [reflexivity|].
  destruct (p c) eqn:Hc; simpl; [|reflexivity].
  apply (many_head p k [c] t).
Qed.

Lemma flat_map_nil (f : cursor -> list cursor) (l : list cursor) :
  (forall x, In x l -> f x = []) -> flat_map f l = [].
Proof.
  induction l as [|a l IH]; simpl; intros H; [reflexivity|].
  rewrite (H a) by auto. apply IH. intros x Hx. apply H. auto.
Qed.

(** When what follows a greedy run cannot start with a character of the
    run, only the longest run is followed by a match. *)
Lemma run_Plus_then (p : ascii -> bool) (R : re) (k : cursor) :
  (forall x, goes_on p x -> run R x = []) ->
  run (Seq (Plus p) R) k
  = match fst (span p (rest k)) with
    | [] => []
    | _ :: _ => run R (advance k (fst (span p (rest k))) (snd (span p (rest k))))
    end.
Proof.
  intros HR. pose proof (run_Plus_head p k) as H.
  change (run (Seq (Plus p) R) k) with (flat_map (run R) (run (Plus p) k)).
  destruct (fst (span p (rest k))) as [|c a].
  - rewrite H. reflexivity.
  - destruct H as (l' & -> & Hl'). cbn [flat_map].
    rewrite (flat_map_nil (run R) l'); [apply app_nil_r|].
    intros x Hx. apply HR, Hl', Hx.
Qed.

Lemma run_Lit_then (l : str) (R : re) (k : cursor) :
  run (Seq (Lit l) R) k
  = if starts_with l (rest k)
    then run R (advance k l (skipn (length l) (rest k)))
    else [].
Proof.
  cbn [run]. destruct (starts_with l (rest k)); simpl; [|reflexivity].
  apply app_nil_r.
Qed.

Lemma run_Bol_then (R : re) (k : cursor) :
  run (Seq Bol R) k = if bol k then run R k else [].
Proof.
  cbn [run]. destruct (bol k); simpl; [|reflexivity]. apply app_nil_r.
Qed.

Lemma dot_after_digit (R : re) (x : cursor) :
  goes_on is_digit x -> run (Seq (Lit (py ".")) R) x = [].
Proof.
  intros (c & t & E & Hc). rewrite run_Lit_then, E.
  change (starts_with (py ".") (c :: t)) with (Ascii.eqb "."%char c && true).
  destruct (Ascii.eqb_spec "."%char c) as [<-|_]; [discriminate Hc|reflexivity].
Qed.

Lemma digits_dot_then (R : re) (k : cursor) :
  run (Seq (Plus is_digit) (Seq (Lit (py ".")) R)) k = []
  \/ exists d r,
       run_of is_digit d /\ rest k = d ++ py "." ++ r
       /\ run (Seq (Plus is_digit) (Seq (Lit (py ".")) R)) k
          = run R (advance k (d ++ py ".") r).
Proof.
  rewrite run_Plus_then by (intros x Hx; apply dot_after_digit, Hx).
  destruct (span_spec is_digit (rest k)) as (E & Hd & _).
  destruct (fst (span is_digit (rest k))) as [|c a] eqn:F; [left; reflexivity|].
  rewrite run_Lit_then. cbn [rest advance].
  destruct (starts_with (py ".") (snd (span is_digit (rest k)))) eqn:S;
    [|left; reflexivity].
  apply starts_with_inv in S. right.
  exists (c :: a), (skipn (length (py ".")) (snd (span is_digit (rest k)))).
  split; [split; [discriminate|exact Hd]|]. split.
  - rewrite <- S. exact E.
  - rewrite advance_advance. reflexivity.
Qed.

Lemma opt_suffix_head (x : cursor) :
  exists k1 l,
    run (Opt (Seq (Lit (py "-")) (Plus is_suffix_char))) x = k1 :: l
    /\ exists sx t,
         suffix_ok sx /\ rest x = suffix_part sx ++ t
         /\ k1 = advance x (suffix_part sx) t
         /\ match sx with
            | Some _ => stops is_suffix_char t
            | None =>
                forall c t', t = "-"%char :: c :: t' -> is_suffix_char c = false
            end.
Proof.
  change (run (Opt (Seq (Lit (py "-")) (Plus is_suffix_char))) x)
    with (run (Seq (Lit (py "-")) (Plus is_suffix_char)) x ++ [x]).
  rewrite run_Lit_then.
  destruct (starts_with (py "-") (rest x)) eqn:S.
  - apply starts_with_inv in S.
    set (r := skipn (length (py "-")) (rest x)) in *.
    pose proof (run_Plus_head is_suffix_char (advance x (py "-") r)) as H.
    cbn [rest advance] in H.
    destruct (span_spec is_suffix_char r) as (E & Ha & Hs).
    destruct (fst (span is_suffix_char r)) as [|c a] eqn:F.
    + rewrite H. exists x, []. split; [reflexivity|].
      exists None, (rest x). split; [exact I|]. split; [reflexivity|].
      split; [symmetry; apply advance_nil|].
      intros c t' E'. rewrite S in E'. simpl in E'. injection E' as E'.
      simpl in E. rewrite <- E, E' in Hs. exact Hs.
    + destruct H as (l' & -> & _). eexists. eexists. split; [reflexivity|].
      exists (Some (c :: a)), (snd (span is_suffix_char r)).
      split; [split; [discriminate|exact Ha]|]. split.
      * rewrite S. cbn [suffix_part]. rewrite <- app_assoc. f_equal. exact E.
      * split; [|exact Hs]. rewrite advance_advance. reflexivity.
  - exists x, []. split; [reflexivity|].
    exists None, (rest x). split; [exact I|]. split; [reflexivity|].
    split; [symmetry; apply advance_nil|].
    intros c t' E. rewrite E in S. discriminate S.
Qed.

Lemma last_digits_head (k : cursor) :
  match run (Seq (Plus is_digit)
                 (Opt (Seq (Lit (py "-")) (Plus is_suffix_char)))) k with
  | k1 :: _ =>
      exists d sx t,
        run_of is_digit d /\ suffix_ok sx /\ munched sx t
        /\ rest k = d ++ suffix_part sx ++ t
        /\ k1 = advance k (d ++ suffix_part sx) t
  | [] => True
  end.
Proof.
  change (run (Seq (Plus is_digit)
                   (Opt (Seq (Lit (py "-")) (Plus is_suffix_char)))) k)
    with (flat_map (run (Opt (Seq (Lit (py "-")) (Plus is_suffix_char))))
                   (run (Plus is_digit) k)).
  pose proof (run_Plus_head is_digit k) as H.
  destruct (span_spec is_digit (rest k)) as (E & Hd & Hs).
  destruct (fst (span is_digit (rest k))) as [|c a] eqn:F.
  - rewrite H. exact I.
  - destruct H as (l' & -> & _). cbn [flat_map].
    destruct (opt_suffix_head (advance k (c :: a) (snd (span is_digit (rest k)))))
      as (k1 & l & -> & sx & t & Hx & Er & -> & Hm).
    cbn [rest advance] in Er. cbn [app].
    exists (c :: a), sx, t. split; [split; [discriminate|exact Hd]|].
    split; [exact Hx|]. split.
    + destruct sx as [sx|]; cbn [munched]; [exact Hm|].
      simpl in Er. subst t. split; [exact Hs|exact Hm].
    + split; [rewrite <- Er; exact E|]. apply advance_advance.
Qed.

(** The first way in which the version pattern of the listing matches:
    the longest version the text starts with. *)
Lemma token_head (k : cursor) :
  match run token_re k with
  | k1 :: _ =>
      exists b x t,
        base_string b /\ suffix_ok x /\ munched x t
        /\ rest k = version_text b x ++ t
        /\ k1 = advance k (version_text b x) t
  | [] => True
  end.
Proof.
  unfold token_re.
  destruct (digits_dot_then
              (Seq (Plus is_digit) (Seq (Lit (py "."))
                 (Seq (Plus is_digit)
                      (Opt (Seq (Lit (py "-")) (Plus is_suffix_char)))))) k)
    as [->|(d1 & r1 & H1 & E1 & ->)]; [exact I|].
  destruct (digits_dot_then
              (Seq (Plus is_digit)
                   (Opt (Seq (Lit (py "-")) (Plus is_suffix_char))))
              (advance k (d1 ++ py ".") r1))
    as [->|(d2 & r2 & H2 & E2 & ->)]; [exact I|].
  cbn [rest advance] in E2.
  pose proof (last_digits_head
                (advance (advance k (d1 ++ py ".") r1) (d2 ++ py ".") r2)) as H.
  destruct (run _ (advance (advance k (d1 ++ py ".") r1) (d2 ++ py ".") r2))
    as [|k1 l]; [exact I|].
  destruct H as (d3 & sx & t & H3 & Hx & Hm & E3 & ->).
  cbn [rest advance] in E3.
  exists (d1 ++ py "." ++ d2 ++ py "." ++ d3), sx, t.
  split; [exists d1, d2, d3; auto|]. split; [exact Hx|]. split; [exact Hm|].
  rewrite version_text_parts, !advance_advance, E1, E2, E3, <- !app_assoc.
  auto.
Qed.

(** ** The headings of the diagnostic *)

Lemma space_not_digit (c : ascii) : is_space c = true -> is_digit c = false.
Proof.
  destruct c as [[] [] [] [] [] [] [] []]; intros H;
    first [reflexivity | discriminate H].
Qed.

Lemma token_needs_digit (x : cursor) :
  goes_on is_space x -> run token_re x = [].
Proof.
  intros (c & t & E & Hc). unfold token_re.
  rewrite run_Plus_then by (intros y Hy; apply dot_after_digit, Hy).
  rewrite E. simpl. rewrite (space_not_digit c Hc). reflexivity.
Qed.

Lemma available_re_unfold :
  available_re
  = Seq Bol (Seq (Lit (py "##")) (Seq (Plus is_space) (Group 1 token_re))).
Proof. reflexivity. Qed.

(** The first way in which the pattern of the listing matches at [k]. *)
Lemma available_head (k : cursor) :
  match run available_re k with
  | k1 :: _ =>
      bol k = true
      /\ exists ws b x t,
           spaces ws /\ base_string b /\ suffix_ok x /\ munched x t
           /\ rest k = py "##" ++ ws ++ version_text b x ++ t
           /\ pos k1 = pos k + length (py "##" ++ ws ++ version_text b x)
           /\ assoc 1 (groups k1) = Some (version_text b x)
  | [] => True
  end.
Proof.
  rewrite available_re_unfold, run_Bol_then.
  destruct (bol k) eqn:Hb; [|exact I].
  rewrite run_Lit_then.
  destruct (starts_with (py "##") (rest k)) eqn:S; [|exact I].
  apply starts_with_inv in S.
  set (r := skipn (length (py "##")) (rest k)) in *.
  rewrite run_Plus_then.
  2:{ intros x Hx. cbn [run]. rewrite (token_needs_digit x Hx). reflexivity. }
  cbn [rest advance].
  destruct (span_spec is_space r) as (E & Hws & _).
  destruct (fst (span is_space r)) as [|c a] eqn:F; [exact I|].
  rewrite advance_advance.
  set (k3 := advance k (py "##" ++ c :: a) (snd (span is_space r))).
  change (run (Group 1 token_re) k3) with (map (capture 1 k3) (run token_re k3)).
  pose proof (token_head k3) as H.
  destruct (run token_re k3) as [|k1 l]; [exact I|].
  destruct H as (b & x & t & Hbs & Hx & Hm & Er & ->).
  cbn [map]. split; [reflexivity|].
  exists (c :: a), b, x, t.
  split; [split; [discriminate|exact Hws]|].
  split; [exact Hbs|]. split; [exact Hx|]. split; [exact Hm|].
  destruct (capture_advance 1 k3 _ t Er) as [_ Eg].
  cbn [rest k3 advance] in Er. split; [|split].
  - rewrite S, E, Er. reflexivity.
  - cbn [pos capture advance k3].
    rewrite (length_app (py "##")), (length_app (py "##")),
      (length_app (c :: a)).
    lia.
  - rewrite Eg. cbn [assoc Nat.eqb]. reflexivity.
Qed.

Lemma token_re_complete (k : cursor) (tok b : str) (x : option str) (t : str) :
  version_string tok b x -> rest k = tok ++ t ->
  exists k', In k' (run token_re k).
Proof.
  intros Hv E. apply version_string_text in Hv.
  destruct Hv as ((d1 & d2 & d3 & H1 & H2 & H3 & ->) & Hx & ->).
  eassert (L : lang token_re _).
  { unfold token_re.
    repeat first [eapply lang_Seq | apply lang_Plus | apply lang_Lit
                 | eapply lang_Opt]. }
  eexists. apply L. eexists. exists t. split; [|split; [exact E|reflexivity]].
  rewrite version_text_parts, <- !app_assoc.
  exists d1. eexists. split; [exact H1|]. split; [|reflexivity].
  exists (py "."). eexists. split; [reflexivity|]. split; [|reflexivity].
  exists d2. eexists. split; [exact H2|]. split; [|reflexivity].
  exists (py "."). eexists. split; [reflexivity|]. split; [|reflexivity].
  exists d3, (suffix_part x). split; [exact H3|]. split; [|reflexivity].
  destruct x as [x|]; simpl; [left|right; reflexivity].
  exists (py "-"), x. auto.
Qed.

Lemma available_complete (text : str) (i : nat) :
  generic_start text i -> exists k', In k' (run available_re (at_index text i)).
Proof.
  intros (pre & ws & tok & b & x & post & -> & <- & Hpre & Hws & Hv).
  rewrite at_index_app.
  set (k := Cursor _ _ _ _).
  destruct (token_re_complete (advance k (py "##" ++ ws) (tok ++ post))
                              tok b x post Hv eq_refl) as (k' & Hk').
  exists (capture 1 (advance k (py "##" ++ ws) (tok ++ post)) k').
  rewrite available_re_unfold. apply run_heading_prefix. split.
  - apply line_start_b_app, Hpre.
  - exists ws, (tok ++ post). split; [exact Hws|]. split; [reflexivity|].
    apply run_Group. exists k'. auto.
Qed.

(** What the listing finds at index [i]. *)
Lemma available_at_index (text : str) (i : nat) :
  match run available_re (at_index text i) with
  | k1 :: _ =>
      exists tok, assoc 1 (groups k1) = Some tok
                  /\ generic_heading text i tok (pos k1)
  | [] => ~ generic_start text i
  end.
Proof.
  pose proof (available_head (at_index text i)) as H.
  destruct (run available_re (at_index text i)) as [|k1 l] eqn:R.
  - intros Hs. apply available_complete in Hs. destruct Hs as (k' & Hk').
    rewrite R in Hk'. destruct Hk'.
  - destruct H as (Hb & ws & b & x & t & Hws & Hbs & Hx & Hm & E & Ep & Eg).
    cbn [at_index bol rest pos] in Hb, E, Ep.
    exists (version_text b x). split; [exact Eg|].
    assert (Hi : i <= length text).
    { destruct (Nat.le_gt_cases i (length text)) as [|Hgt]; [assumption|].
      rewrite skipn_all2 in E by lia. discriminate. }
    destruct (split_at text i Hi) as [Ht Hl].
    exists (firstn i text), ws, b, x, t. rewrite E in Ht.
    split; [exact Ht|]. split; [exact Hl|]. split.
    { rewrite <- Hl in Hb. rewrite Ht in Hb at 1.
      apply line_start_b_app in Hb. exact Hb. }
    split; [exact Hws|]. split; [apply version_string_text; auto|].
    split; [exact Hm|]. rewrite Ep, (length_app (firstn i text)), Hl.
    reflexivity.
Qed.

Lemma generic_heading_start (text : str) (i : nat) (tok : str) (e : nat) :
  generic_heading text i tok e -> generic_start text i.
Proof.
  intros (pre & ws & b & x & post & E & Hl & Hpre & Hws & Hv & _).
  exists pre, ws, tok, b, x, post. auto.
Qed.

Lemma nth_error_after (pre s : str) (n : nat) :
  nth_error (pre ++ s) (length pre + n) = nth_error s n.
Proof.
  rewrite nth_error_app2 by lia. f_equal. lia.
Qed.

Lemma generic_start_chars (text : str) (j : nat) :
  generic_start text j ->
  nth_error text j = Some "#"%char
  /\ (j = 0 \/ nth_error text (j - 1) = Some nl).
Proof.
  intros (pre & ws & tok & b & x & post & -> & <- & Hpre & _). split.
  - rewrite <- (Nat.add_0_r (length pre)), nth_error_after. reflexivity.
  - destruct Hpre as [->|(p & ->)]; [left; reflexivity|right].
    rewrite length_app. simpl. rewrite Nat.add_sub, <- app_assoc.
    rewrite <- (Nat.add_0_r (length p)), nth_error_after. reflexivity.
Qed.

Lemma run_of_suffix_chars (d : str) :
  run_of is_digit d -> forallb is_suffix_char d = true.
Proof.
  intros [_ H]. rewrite forallb_forall in *. intros c Hc.
  apply digit_is_suffix_char, H, Hc.
Qed.

Lemma version_chars (tok b : str) (x : option str) :
  version_string tok b x -> forallb is_suffix_char tok = true.
Proof.
  rewrite version_string_text, version_text_parts.
  intros ((d1 & d2 & d3 & H1 & H2 & H3 & ->) & Hx & ->).
  rewrite !forallb_app, (run_of_suffix_chars d1 H1),
    (run_of_suffix_chars d2 H2), (run_of_suffix_chars d3 H3).
  destruct x as [x|]; simpl; [|reflexivity]. apply Hx.
Qed.

Lemma generic_heading_chars (text : str) (i : nat) (tok : str) (e : nat) :
  generic_heading text i tok e ->
  nth_error text i = Some "#"%char
  /\ forall j, i + 2 <= j < e ->
       exists c, nth_error text j = Some c
                 /\ (is_space c = true \/ is_suffix_char c = true).
Proof.
  intros (pre & ws & b & x & post & -> & <- & _ & [_ Hws] & Hv & _ & ->).
  split.
  - rewrite <- (Nat.add_0_r (length pre)), nth_error_after. reflexivity.
  - intros j Hj. rewrite !length_app in Hj. simpl in Hj.
    replace j with (length pre + (2 + (j - length pre - 2))) by lia.
    rewrite nth_error_after. cbn [py list_ascii_of_string app Nat.add nth_error].
    rewrite app_assoc, nth_error_app1 by (rewrite length_app; lia).
    destruct (nth_error (ws ++ tok) (j - length pre - 2)) as [c|] eqn:N.
    + exists c. split; [reflexivity|].
      apply nth_error_In in N. apply in_app_or in N. destruct N as [N|N].
      * left. rewrite forallb_forall in Hws. apply Hws, N.
      * right. pose proof (version_chars _ _ _ Hv) as Ht.
        rewrite forallb_forall in Ht. apply Ht, N.
    + apply nth_error_None in N. rewrite length_app in N. lia.
Qed.

(** Two headings of the listing do not overlap. *)
Lemma generic_heading_apart (text : str) (i : nat) (tok : str) (e j : nat) :
  generic_heading text i tok e -> i < j < e -> ~ generic_start text j.
Proof.
  intros Hh Hj Hs.
  destruct (generic_heading_chars _ _ _ _ Hh) as [Hi Hin].
  destruct (generic_start_chars _ _ Hs) as [Hc Hp].
  destruct (Nat.eq_dec j (S i)) as [->|Hne].
  - destruct Hp as [Hp|Hp]; [discriminate|].
    simpl in Hp. rewrite Nat.sub_0_r, Hi in Hp. discriminate.
  - destruct (Hin j ltac:(lia)) as (c & Ec & Hcc).
    rewrite Hc in Ec. injection Ec as <-. destruct Hcc; discriminate.
Qed.

Lemma generic_start_lt (text : str) (j : nat) :
  generic_start text j -> j < length text.
Proof.
  intros (pre & ws & tok & b & x & post & -> & <- & _).
  rewrite length_app. simpl. lia.
Qed.

Lemma headings_from_none (text : str) (i : nat) :
  (forall j, i <= j -> ~ generic_start text j) -> headings_from text i [].
Proof.
  intros H. split; [constructor|]. split.
  - intros j tok [].
  - intros j Hj Hs. destruct (H j Hj Hs).
Qed.

Lemma headings_from_skip (text : str) (i : nat) (hs : list (nat * str)) :
  ~ generic_start text i -> headings_from text (S i) hs ->
  headings_from text i hs.
Proof.
  intros Hn (Hs & Hin & Hall). split; [exact Hs|]. split.
  - intros j tok Hj. destruct (Hin j tok Hj) as [Hle He]. split; [lia|exact He].
  - intros j Hj Hg. apply Hall; [|exact Hg].
    destruct (Nat.eq_dec j i) as [->|]; [destruct (Hn Hg)|lia].
Qed.

Lemma headings_from_cons (text : str) (i : nat) (tok : str) (e : nat)
    (hs : list (nat * str)) :
  generic_heading text i tok e -> headings_from text (S i) hs ->
  headings_from text i ((i, tok) :: hs).
Proof.
  intros Hh (Hs & Hin & Hall). split; [|split].
  - simpl. constructor; [exact Hs|].
    apply Forall_forall. intros j Hj. apply in_map_iff in Hj.
    destruct Hj as ((j' & tok') & <- & Hj). simpl.
    destruct (Hin j' tok' Hj) as [Hle _]. lia.
  - intros j tok' [E|Hj].
    + injection E as <- <-. split; [lia|]. exists e. exact Hh.
    + destruct (Hin j tok' Hj) as [Hle He]. split; [lia|exact He].
  - intros j Hj Hg. simpl. destruct (Nat.eq_dec j i) as [->|]; [left; reflexivity|].
    right. apply Hall; [lia|exact Hg].
Qed.

Lemma findall_from_spec (text : str) (n : nat) :
  forall i skip,
    i + n = length text ->
    (forall j, i <= j < i + skip -> ~ generic_start text j) ->
    exists hs,
      headings_from text i hs
      /\ findall_from available_re skip i (line_start_b text i) (skipn i text)
         = map snd hs.
Proof.
  induction n as [|n IH]; intros i skip Hi Hskip.
  - exists []. split.
    + apply headings_from_none. intros j Hj Hg.
      apply generic_start_lt in Hg. lia.
    + pose proof (available_at_index text i) as H. unfold at_index in H.
      rewrite skipn_all2 in * by lia.
      destruct skip as [|skip]; cbn [findall_from map]; [|reflexivity].
      destruct (run available_re _) as [|k1 l]; [reflexivity|].
      destruct H as (tok & _ & Hh). apply generic_heading_start in Hh.
      apply generic_start_lt in Hh. lia.
  - pose proof (available_at_index text i) as H. unfold at_index in H.
    destruct (skipn i text) as [|c t] eqn:E.
    { apply (f_equal (@length ascii)) in E. rewrite length_skipn in E.
      simpl in E. lia. }
    destruct (skipn_step _ _ _ _ E) as [Hc Ht].
    assert (Hb : line_start_b text (S i) = is_nl c) by (simpl; rewrite Hc; reflexivity).
    destruct skip as [|skip].
    + cbn [findall_from].
      destruct (run available_re _) as [|k1 l].
      * destruct (IH (S i) 0 ltac:(lia)) as (hs & Hhs & Ehs).
        { intros j Hj. lia. }
        exists hs. split; [apply headings_from_skip; assumption|].
        rewrite <- Ehs, Hb, Ht. reflexivity.
      * destruct H as (tok & Eg & Hh).
        destruct (IH (S i) (pos k1 - i - 1) ltac:(lia)) as (hs & Hhs & Ehs).
        { intros j Hj. apply (generic_heading_apart _ _ _ _ j Hh). lia. }
        exists ((i, tok) :: hs). split.
        -- apply (headings_from_cons _ _ _ _ _ Hh Hhs).
        -- rewrite Eg. simpl. rewrite <- Ehs, Hb, Ht. reflexivity.
    + cbn [findall_from].
      destruct (IH (S i) skip ltac:(lia)) as (hs & Hhs & Ehs).
      { intros j Hj. apply Hskip. lia. }
      exists hs. split.
      * apply headings_from_skip; [|exact Hhs]. apply Hskip. lia.
      * rewrite <- Ehs, Hb, Ht. reflexivity.
Qed.

(** [re.findall] with the pattern of line 29 lists, top to bottom, the
    version of every line that starts with [##], white space and a
    version. *)
Lemma findall_available (text : str) :
  exists hs,
    headings_from text 0 hs /\ findall available_re text = map snd hs.
Proof.
  destruct (findall_from_spec text (length text) 0 0 eq_refl) as (hs & H).
  - intros j Hj. lia.
  - exists hs. exact H.
Qed.

Lemma no_heading_no_match (text : str) (v : version_spec) :
  (forall j e, ~ heading_at text (requested (base v) (suffix v)) j e) ->
  findSection text v = VersionNotFound (findall available_re text).
Proof.
  intros Hno. unfold findSection.
  pose proof (header_search text (base v) (suffix v)) as H.
  destruct (search (header_re (base v) (suffix v)) text) as [m|];
    [|reflexivity].
  destruct H as [Hh _]. destruct (Hno _ _ Hh).
Qed.

(** C8: when no heading of the document matches the requested version, the
    script writes to [stderr] the version searched and the versions of
    the lines that start with [##], white space and
    [<digits>.<digits>.<digits>[-suffix]], top to bottom and at most 20 of
    them, writes nothing to [stdout], and exits with status 1. *)
Theorem version_not_found_report (version file text : str) (v : version_spec) :
  parseVersion version = Some v ->
  (forall j e, ~ heading_at text (requested (base v) (suffix v)) j e) ->
  exists hs,
    headings_from text 0 hs
    /\ findSection text v = VersionNotFound (map snd hs)
    /\ main version file text
       = SysExit 1
           (py "Version " ++ dquote :: raw v ++ dquote :: py " not found in "
            ++ file ++ py "." ++ nl :: py "Available: "
            ++ join (py ", ") (firstn 20 (map snd hs)) ++ [nl])
    /\ length (firstn 20 (map snd hs)) <= 20
    /\ (1 <> 0)%Z.
Proof.
  intros Hp Hno. destruct (findall_available text) as (hs & Hhs & E).
  exists hs. split; [exact Hhs|].
  pose proof (no_heading_no_match text v Hno) as Hf. rewrite E in Hf.
  split; [exact Hf|]. split.
  - unfold main. rewrite Hp, Hf. reflexivity.
  - split; [|discriminate]. rewrite length_firstn. lia.
Qed.

(** [version_not_found_report] on the request [5.0.2-beta2]. *)
Lemma version_not_found_report_witness :
  parseVersion (py "5.0.2-beta2") = Some v502beta2
  /\ (forall j e,
        ~ heading_at doc_beta
            (requested (base v502beta2) (suffix v502beta2)) j e)
  /\ main (py "5.0.2-beta2") (py "CHANGELOG.md") doc_beta
     = SysExit 1
         (py "Version " ++ dquote :: py "5.0.2-beta2" ++ dquote
          :: py " not found in CHANGELOG.md." ++ nl
          :: py "Available: 5.0.2-beta1, 5.0.2" ++ [nl]).
Proof.
  assert (Hp : parseVersion (py "5.0.2-beta2") = Some v502beta2)
    by (vm_compute; reflexivity).
  assert (Hno : forall j e,
             ~ heading_at doc_beta
                 (requested (base v502beta2) (suffix v502beta2)) j e).
  { pose proof (header_search doc_beta (base v502beta2) (suffix v502beta2)) as H.
    replace (search (header_re (base v502beta2) (suffix v502beta2)) doc_beta)
      with (@None match_obj) in H by (vm_compute; reflexivity).
    exact H. }
  split; [exact Hp|]. split; [exact Hno|].
  destruct (version_not_found_report (py "5.0.2-beta2") (py "CHANGELOG.md")
              doc_beta v502beta2 Hp Hno) as (hs & _ & Hf & Hm & _).
  replace (findSection doc_beta v502beta2)
    with (VersionNotFound [py "5.0.2-beta1"; py "5.0.2"]) in Hf
    by (vm_compute; reflexivity).
  injection Hf as Hf. rewrite <- Hf in Hm. rewrite Hm.
  vm_compute. reflexivity.
Defined.

(** ** Parsed requests *)

Lemma parse_version_string (s b : str) (x : option str) :
  version_string s b x -> parseVersion s = Some (VersionSpec s b x).
Proof.
  intros Hv.
  assert (Hraw : lstrip (py "v") (strip s) = s).
  { pose proof (strip_padded [] s [] eq_refl eq_refl
                              (v_run_trimmed 0 s b x Hv)) as Hs.
    cbn [app] in Hs. rewrite app_nil_r in Hs. rewrite Hs.
    apply (lstrip_v_run 0 s b x Hv). }
  pose proof (parseVersion_spec s) as H. rewrite Hraw in H.
  destruct (parseVersion s) as [[r b' x']|].
  - destruct H as [Er Hv']. simpl in *. subst r.
    destruct (version_string_unique _ _ _ _ _ Hv Hv') as [-> ->]. reflexivity.
  - destruct (H b x Hv).
Qed.

Lemma parsed_well_formed (version : str) (v : version_spec) :
  parseVersion version = Some v -> well_formed v.
Proof.
  intros H. pose proof (parseVersion_spec version) as Hs. rewrite H in Hs.
  apply Hs.
Qed.

Lemma well_formed_truthy (v : version_spec) :
  well_formed v ->
  truthy (suffix v) = match suffix v with Some _ => true | None => false end.
Proof.
  unfold well_formed, version_string. destruct (suffix v) as [[|c x]|];
    simpl; try reflexivity.
  intros (_ & [Hne _] & _). congruence.
Qed.

(** X1: a version that parses is normalised.  Its [raw] text is the input
    without the surrounding white space and the leading [v]s, and reads
    base, or base, hyphen, suffix; the base is three runs of digits kept
    as they were written, a suffix that is present is not empty; and
    parsing [raw] again gives the same request. *)
Theorem parseVersion_normalises (version : str) (v : version_spec) :
  parseVersion version = Some v ->
  raw v = lstrip (py "v") (strip version)
  /\ base_string (base v)
  /\ suffix_ok (suffix v)
  /\ suffix v <> Some []
  /\ raw v = version_text (base v) (suffix v)
  /\ parseVersion (raw v) = Some v.
Proof.
  intros H. pose proof (parseVersion_spec version) as Hs. rewrite H in Hs.
  destruct Hs as [Er Hv]. split; [exact Er|].
  pose proof Hv as Hv'. apply version_string_text in Hv'.
  destruct Hv' as (Hb & Hx & Et).
  split; [exact Hb|]. split; [exact Hx|]. split.
  - intros E. rewrite E in Hx. destruct Hx as [Hne _]. congruence.
  - split; [exact Et|]. rewrite (parse_version_string _ _ _ Hv).
    destruct v; reflexivity.
Qed.

Lemma parseVersion_normalises_witness :
  parseVersion (py " vv1.20.03-rc.1 ")
  = Some (VersionSpec (py "1.20.03-rc.1") (py "1.20.03") (Some (py "rc.1")))
  /\ parseVersion (py "1.20.03-rc.1")
     = Some (VersionSpec (py "1.20.03-rc.1") (py "1.20.03") (Some (py "rc.1"))).
Proof.
  split; [vm_compute; reflexivity|].
  apply (parseVersion_normalises (py " vv1.20.03-rc.1 ")
           (VersionSpec (py "1.20.03-rc.1") (py "1.20.03") (Some (py "rc.1")))).
  vm_compute. reflexivity.
Defined.

(** X2: for a version that parsed, the test [if suffix:] tells a suffix
    that is present from one that is absent: the exact pattern is built
    exactly when the version string had a suffix, the pattern with any
    suffix exactly when it had none. *)
Theorem parsed_suffix_selects_pattern (version : str) (v : version_spec) :
  parseVersion version = Some v ->
  header_re (base v) (suffix v)
  = match suffix v with
    | Some x => exact_header_re (base v) x
    | None => wildcard_header_re (base v)
    end.
Proof.
  intros H. pose proof (well_formed_truthy v (parsed_well_formed _ _ H)) as Ht.
  unfold header_re. rewrite Ht. destruct (suffix v); reflexivity.
Qed.

Lemma parsed_suffix_selects_pattern_witness :
  parseVersion (py "v5.0.2-beta1") = Some v502beta1
  /\ header_re (base v502beta1) (suffix v502beta1)
     = exact_header_re (py "5.0.2") (py "beta1").
Proof.
  split; [vm_compute; reflexivity|].
  apply (parsed_suffix_selects_pattern (py "v5.0.2-beta1") v502beta1).
  vm_compute. reflexivity.
Defined.

(** ** One heading, one section *)

Lemma app_same_length (a a' b b' : str) :
  length a = length a' -> a ++ b = a' ++ b' -> a = a' /\ b = b'.
Proof.
  revert a'. induction a as [|c a IH]; intros [|c' a'] Hl E; simpl in *;
    try discriminate.
  - auto.
  - injection E as -> E. injection Hl as Hl.
    destruct (IH a' Hl E) as [-> ->]. auto.
Qed.

Lemma space_not_suffix_char (c : ascii) :
  is_space c = true -> is_suffix_char c = false.
Proof.
  intros H. destruct (is_suffix_char c) eqn:E; [|reflexivity].
  apply suffix_char_not_space in E. congruence.
Qed.

Lemma at_token_end_stops (post : str) :
  at_token_end post -> stops is_suffix_char post.
Proof.
  destruct post as [|c t]; simpl; [auto|]. apply space_not_suffix_char.
Qed.

Lemma requested_cases (b : str) (x : option str) (tok : str) :
  suffix_ok x ->
  (requested b x tok <->
   match x with
   | Some x' => tok = b ++ py "-" ++ x'
   | None => wildcard_token b tok
   end).
Proof.
  unfold requested. destruct x as [[|c x]|]; simpl; try reflexivity.
  intros [Hne _]. congruence.
Qed.

Lemma base_string_head (b : str) :
  base_string b -> exists c t, b = c :: t /\ is_digit c = true.
Proof.
  intros (d1 & d2 & d3 & H1 & _ & _ & ->).
  destruct (run_of_head _ _ H1) as (c & t & -> & Hc).
  exists c. eexists. split; [reflexivity|exact Hc].
Qed.

Lemma requested_head (b : str) (x : option str) (tok : str) :
  base_string b -> suffix_ok x -> requested b x tok ->
  exists t, tok = b ++ t.
Proof.
  intros Hb Hx H. apply (requested_cases b x tok Hx) in H.
  destruct x as [x|].
  - eexists. exact H.
  - destruct H as (sfx & _ & ->). eexists. reflexivity.
Qed.

(** A requested token of a well-formed request is determined by the text
    it starts. *)
Lemma requested_token_unique (b : str) (x : option str)
    (tok tok' post post' : str) :
  suffix_ok x -> requested b x tok -> requested b x tok' ->
  at_token_end post -> at_token_end post' ->
  tok ++ post = tok' ++ post' -> tok = tok'.
Proof.
  intros Hx H H' Hp Hp' E.
  apply (requested_cases b x tok Hx) in H.
  apply (requested_cases b x tok' Hx) in H'.
  destruct x as [x|]; [congruence|].
  destruct H as (sfx & Hs & ->), H' as (sfx' & Hs' & ->).
  rewrite <- !app_assoc in E. apply app_inv_head in E. f_equal.
  destruct Hs as [->|(y & _ & Hy & ->)], Hs' as [->|(y' & _ & Hy' & ->)].
  - reflexivity.
  - simpl in E. subst post. simpl in Hp. discriminate Hp.
  - simpl in E. subst post'. simpl in Hp'. discriminate Hp'.
  - simpl in E. injection E as E. simpl. f_equal.
    apply (span_unique is_suffix_char y y' post post' Hy Hy'
             (at_token_end_stops _ Hp) (at_token_end_stops _ Hp') E).
Qed.

Lemma heading_at_end_unique (text b : str) (x : option str) (i e e' : nat) :
  base_string b -> suffix_ok x ->
  heading_at text (requested b x) i e ->
  heading_at text (requested b x) i e' ->
  e = e'.
Proof.
  intros Hb Hx
    (pre & ws & tok & post & -> & <- & _ & [_ Hws] & Htok & Hp & ->)
    (pre' & ws' & tok' & post' & E & Hl & _ & [_ Hws'] & Htok' & Hp' & ->).
  symmetry in Hl. destruct (app_same_length _ _ _ _ Hl E) as [<- E1].
  apply app_inv_head in E1.
  destruct (base_string_head b Hb) as (c & t & Eb & Hc).
  destruct (requested_head b x tok Hb Hx Htok) as (r & Er).
  destruct (requested_head b x tok' Hb Hx Htok') as (r' & Er').
  assert (Hnd : is_space c = false).
  { apply suffix_char_not_space, digit_is_suffix_char, Hc. }
  apply (span_unique is_space) in E1; try assumption.
  - destruct E1 as [<- E1].
    rewrite (requested_token_unique b x tok tok' post post' Hx Htok Htok'
               Hp Hp' E1).
    reflexivity.
  - rewrite Er, Eb. exact Hnd.
  - rewrite Er', Eb. exact Hnd.
Qed.

Lemma section_end_unique (text : str) (start e e' : nat) :
  section_end text start e -> section_end text start e' -> e = e'.
Proof.
  intros (Hle & Hno & He) (Hle' & Hno' & He').
  destruct (Nat.lt_trichotomy e e') as [Hlt|[Heq|Hgt]]; [|exact Heq|].
  - exfalso. destruct He as [Hs|[-> Hall]].
    + apply (Hno' e); [lia|exact Hs].
    + destruct He' as [Hs'|[-> _]]; [|lia].
      apply heading_start_lt in Hs'. lia.
  - exfalso. destruct He' as [Hs'|[-> Hall']].
    + apply (Hno e'); [lia|exact Hs'].
    + destruct He as [Hs|[-> _]]; [|lia].
      apply heading_start_lt in Hs. lia.
Qed.

(** For a well-formed request, [findSection] returns the section of the
    first requested heading, and nothing else. *)
Lemma findSection_iff (text : str) (v : version_spec) (s : str) :
  base_string (base v) -> suffix_ok (suffix v) ->
  (findSection text v = Found s
   <-> section_of text (requested (base v) (suffix v)) s).
Proof.
  intros Hb Hx. pose proof (findSection_spec text v) as H. split.
  - intros E. rewrite E in H. exact H.
  - intros (i & start & e & Hh & Hfirst & He & ->).
    destruct (findSection text v) as [s0|found].
    + destruct H as (i0 & start0 & e0 & Hh0 & Hfirst0 & He0 & ->).
      assert (i = i0).
      { destruct (Nat.lt_trichotomy i i0) as [Hlt|[Heq|Hgt]]; [|exact Heq|].
        - destruct (Hfirst0 _ _ Hlt Hh).
        - destruct (Hfirst _ _ Hgt Hh0). }
      subst i0.
      assert (start = start0)
        by apply (heading_at_end_unique text _ _ i _ _ Hb Hx Hh Hh0).
      subst start0.
      rewrite (section_end_unique text start e e0 He He0). reflexivity.
    + destruct H as [_ Hno]. destruct (Hno _ _ Hh).
Qed.

Lemma findSection_not_found_iff (text : str) (v : version_spec) :
  (exists found, findSection text v = VersionNotFound found)
  <-> ~ has_heading text (requested (base v) (suffix v)).
Proof.
  pose proof (findSection_spec text v) as H. split.
  - intros (found & E) (i & e & Hh). rewrite E in H.
    destruct H as [_ Hno]. apply (Hno _ _ Hh).
  - intros Hno. destruct (findSection text v) as [s0|found].
    + destruct H as (i & start & e & Hh & _). exfalso. apply Hno.
      exists i, start. exact Hh.
    + eauto.
Qed.

(** X3: for a version that parsed, the result of [findSection] is fixed by
    the document: it is [Found s] exactly when [s] is the stripped text
    between the token of the first heading that reads the requested
    version and the next heading (or the end of the document), and it is
    [VersionNotFound] exactly when no heading reads the requested
    version. *)
Theorem findSection_characterised (version text : str) (v : version_spec) :
  parseVersion version = Some v ->
  (forall s, findSection text v = Found s
             <-> section_of text (requested (base v) (suffix v)) s)
  /\ ((exists found, findSection text v = VersionNotFound found)
      <-> ~ has_heading text (requested (base v) (suffix v))).
Proof.
  intros H. pose proof (parsed_well_formed _ _ H) as Hw.
  apply version_string_text in Hw. destruct Hw as (Hb & Hx & _).
  split; [|apply findSection_not_found_iff].
  intros s. apply findSection_iff; assumption.
Qed.

Lemma findSection_characterised_witness :
  parseVersion (py "5.0.2") = Some v502
  /\ (forall s, findSection doc_two v502 = Found s
                <-> section_of doc_two (requested (base v502) (suffix v502)) s)
  /\ ((exists found, findSection doc_two v502 = VersionNotFound found)
      <-> ~ has_heading doc_two (requested (base v502) (suffix v502))).
Proof.
  split; [vm_compute; reflexivity|].
  apply (findSection_characterised (py "5.0.2") doc_two v502).
  vm_compute. reflexivity.
Defined.

(** ** Requests for the same base *)

Lemma heading_at_mono (text : str) (Tok Tok' : str -> Prop) (i e : nat) :
  (forall tok, Tok tok -> Tok' tok) ->
  heading_at text Tok i e -> heading_at text Tok' i e.
Proof.
  intros H (pre & ws & tok & post & E & Hl & Hpre & Hws & Htok & Hp & He).
  exists pre, ws, tok, post. repeat (split; [assumption|]).
  split; [apply H, Htok|]. split; assumption.
Qed.

Lemma suffixed_is_wildcard (b x tok : str) :
  run_of is_suffix_char x ->
  requested b (Some x) tok -> requested b None tok.
Proof.
  intros Hx H. apply (requested_cases b (Some x) tok Hx) in H.
  apply (requested_cases b None tok I). subst tok.
  exists (py "-" ++ x). split; [right|reflexivity].
  destruct Hx as [Hne Hx]. exists x. auto.
Qed.

Lemma base_parses_to_itself (b : str) :
  base_string b -> parseVersion b = Some (VersionSpec b b None).
Proof.
  intros Hb. apply parse_version_string. split; [exact Hb|reflexivity].
Qed.

(** X4: a request for the base alone covers the requests with a suffix.
    When a version with a suffix parsed and its section is found, the
    request for its base alone parses and finds a section too; and when no
    heading with that base stands above the heading of the suffixed
    version, the two requests return the same section. *)
Theorem base_request_covers_suffixed (version text : str) (v : version_spec)
    (x s : str) :
  parseVersion version = Some v ->
  suffix v = Some x ->
  findSection text v = Found s ->
  parseVersion (base v) = Some (VersionSpec (base v) (base v) None)
  /\ (exists s', findSection text (VersionSpec (base v) (base v) None)
                 = Found s')
  /\ ((forall i e j e',
          heading_at text (requested (base v) (Some x)) i e -> j < i ->
          ~ heading_at text (requested (base v) None) j e') ->
      findSection text (VersionSpec (base v) (base v) None) = Found s).
Proof.
  intros Hp Es Hf. pose proof (parsed_well_formed _ _ Hp) as Hw.
  apply version_string_text in Hw. destruct Hw as (Hb & Hx & _).
  rewrite Es in Hx. cbn [suffix_ok] in Hx.
  split; [apply base_parses_to_itself, Hb|].
  apply (findSection_iff text v s Hb) in Hf; [|rewrite Es; exact Hx].
  rewrite Es in Hf. destruct Hf as (i & start & e & Hh & Hfirst & He & Hs).
  pose proof (heading_at_mono text _ _ i start
                (fun tok => suffixed_is_wildcard (base v) x tok Hx) Hh) as Hh0.
  split.
  - pose proof (findSection_spec text (VersionSpec (base v) (base v) None))
      as H.
    destruct (findSection text (VersionSpec (base v) (base v) None))
      as [s'|found]; [eauto|].
    destruct H as [_ Hno]. destruct (Hno _ _ Hh0).
  - intros Habove.
    apply (findSection_iff text (VersionSpec (base v) (base v) None) s Hb I).
    exists i, start, e. split; [exact Hh0|]. split; [|auto].
    intros j e' Hj. apply (Habove i start j e' Hh Hj).
Qed.

Lemma base_request_covers_suffixed_witness :
  parseVersion (py "5.0.2-beta1") = Some v502beta1
  /\ suffix v502beta1 = Some (py "beta1")
  /\ findSection doc_beta v502beta1 = Found (py "bodyA")
  /\ exists s', findSection doc_beta
                  (VersionSpec (base v502beta1) (base v502beta1) None)
                = Found s'.
Proof.
  split; [vm_compute; reflexivity|]. split; [reflexivity|].
  split; [vm_compute; reflexivity|].
  apply (base_request_covers_suffixed (py "5.0.2-beta1") doc_beta v502beta1
           (py "beta1") (py "bodyA"));
    [vm_compute; reflexivity|reflexivity|vm_compute; reflexivity].
Defined.

(** ** From the diagnostic back to a request *)

Lemma generic_heading_requested (text : str) (i : nat) (tok : str) (e : nat) :
  generic_heading text i tok e -> at_token_end (skipn e text) ->
  exists b x,
    version_string tok b x /\ heading_at text (requested b x) i e.
Proof.
  intros (pre & ws & b & x & post & -> & <- & Hpre & Hws & Hv & _ & ->) He.
  exists b, x. split; [exact Hv|].
  assert (Ep : skipn (length (pre ++ py "##" ++ ws ++ tok))
                     (pre ++ py "##" ++ ws ++ tok ++ post) = post).
  { replace (pre ++ py "##" ++ ws ++ tok ++ post)
      with ((pre ++ py "##" ++ ws ++ tok) ++ post)
      by (now rewrite <- !app_assoc).
    apply skipn_length_app. }
  rewrite Ep in He.
  exists pre, ws, tok, post.
  split; [reflexivity|]. split; [reflexivity|]. split; [exact Hpre|].
  split; [exact Hws|]. split; [|split; [exact He|reflexivity]].
  pose proof Hv as Hv'. apply version_string_text in Hv'.
  destruct Hv' as (_ & Hx & ->).
  apply (requested_cases b x _ Hx). destruct x as [x|]; simpl; [reflexivity|].
  exists []. rewrite app_nil_r. auto.
Qed.

(** X5: every entry of the list of available versions is the version of
    a heading of the document and parses to a request whose [raw] text is
    the entry itself; when that version stops at a white space or at the
    end of the document, requesting the entry finds a section.  An entry
    whose heading goes on after the version, as in [## 5.0.3beta], is
    listed and yet not found when requested. *)
Theorem listed_version_can_be_requested :
  (forall (text tok : str),
      In tok (findall available_re text) ->
      exists i e v,
        generic_heading text i tok e
        /\ parseVersion tok = Some v /\ raw v = tok
        /\ (at_token_end (skipn e text) ->
            exists s, findSection text v = Found s))
  /\ findall available_re doc_glued = [py "5.0.3"]
  /\ parseVersion (py "5.0.3") = Some v503
  /\ findSection doc_glued v503 = VersionNotFound [py "5.0.3"].
Proof.
  split; [|repeat split; vm_compute; reflexivity].
  intros text tok Hin.
  destruct (findall_available text) as (hs & (_ & Hhs & _) & E).
  rewrite E in Hin. apply in_map_iff in Hin.
  destruct Hin as ((i & tok') & Et & Hin). simpl in Et. subst tok'.
  destruct (Hhs i tok Hin) as (_ & e & Hg).
  pose proof Hg as (pre & ws & b & x & post & _ & _ & _ & _ & Hv & _).
  exists i, e, (VersionSpec tok b x). split; [exact Hg|].
  split; [apply parse_version_string, Hv|]. split; [reflexivity|].
  intros He.
  destruct (generic_heading_requested text i tok e Hg He)
    as (b' & x' & Hv' & Hh).
  destruct (version_string_unique _ _ _ _ _ Hv Hv') as [<- <-].
  pose proof (findSection_spec text (VersionSpec tok b x)) as H.
  destruct (findSection text (VersionSpec tok b x)) as [s|found]; [eauto|].
  destruct H as [_ Hno]. destruct (Hno _ _ Hh).
Qed.

(** ** A run, case by case *)

(** X6: what a run of the script does is fixed by the version string and
    the document.  A version string that is not accepted raises
    [ValueError] with the string as it was given; an accepted one parses,
    and then the run prints the section of the first requested heading
    followed by a line feed, or, when the document has no requested
    heading, writes the diagnostic with the list of available versions
    and exits with status 1. *)
Theorem main_outcomes (version file text : str) :
  (~ accepted version ->
   main version file text = ValueError (py "Invalid version: " ++ version))
  /\ (accepted version ->
      exists v,
        parseVersion version = Some v
        /\ (forall s, section_of text (requested (base v) (suffix v)) s ->
                      main version file text = Printed (s ++ [nl]))
        /\ (~ has_heading text (requested (base v) (suffix v)) ->
            main version file text
            = SysExit 1 (not_found_message (raw v) file
                                           (findall available_re text)))).
Proof.
  pose proof (parseVersion_spec version) as H. unfold main. split.
  - intros Hn. destruct (parseVersion version) as [v|]; [|reflexivity].
    exfalso. apply Hn, accepted_iff. destruct H as [Er Hv].
    exists (base v), (suffix v). rewrite <- Er. exact Hv.
  - intros Ha. apply accepted_iff in Ha. destruct Ha as (b & x & Hv).
    destruct (parseVersion version) as [v|]; [|destruct (H b x Hv)].
    exists v. split; [reflexivity|].
    destruct H as [_ Hw]. apply version_string_text in Hw.
    destruct Hw as (Hb & Hx & _). split.
    + intros s Hs. apply (findSection_iff text v s Hb Hx) in Hs.
      rewrite Hs. reflexivity.
    + intros Hno. rewrite (no_heading_no_match text v); [reflexivity|].
      intros j e Hh. apply Hno. exists j, e. exact Hh.
Qed.

(** ** Text above the heading *)

Lemma app_prefix_split (a b c d : str) :
  a ++ b = c ++ d -> length a <= length c ->
  exists c', c = a ++ c' /\ b = c' ++ d.
Proof.
  revert c. induction a as [|x a IH]; intros c E Hl; simpl in *.
  - exists c. auto.
  - destruct c as [|y c]; simpl in *; [lia|].
    injection E as -> E. destruct (IH c E ltac:(lia)) as (c' & -> & ->).
    exists c'. auto.
Qed.

Lemma ends_line_app (new pre : str) :
  ends_line new -> ends_line pre -> ends_line (new ++ pre).
Proof.
  intros Hn [->|(p & ->)].
  - rewrite app_nil_r. exact Hn.
  - right. exists (new ++ p). apply app_assoc.
Qed.

Lemma ends_line_app_inv (new pre : str) :
  ends_line (new ++ pre) -> ends_line pre.
Proof.
  destruct pre as [|c pre _] using rev_ind; [left; reflexivity|].
  intros [E|(p & E)].
  - apply app_eq_nil in E. destruct E as [_ E]. destruct pre; discriminate.
  - rewrite app_assoc in E. apply app_inj_tail in E. destruct E as [_ ->].
    right. eauto.
Qed.

Lemma heading_at_prepend (new text : str) (Tok : str -> Prop) (i e : nat) :
  ends_line new -> heading_at text Tok i e ->
  heading_at (new ++ text) Tok (length new + i) (length new + e).
Proof.
  intros Hn (pre & ws & tok & post & -> & <- & Hpre & Hws & Htok & Hp & ->).
  exists (new ++ pre), ws, tok, post.
  split; [now rewrite <- app_assoc|]. split; [apply length_app|].
  split; [apply ends_line_app; assumption|]. split; [exact Hws|].
  split; [exact Htok|]. split; [exact Hp|].
  rewrite <- app_assoc. symmetry. apply length_app.
Qed.

Lemma heading_at_prepend_inv (new text : str) (Tok : str -> Prop) (j e : nat) :
  length new <= j -> heading_at (new ++ text) Tok j e ->
  heading_at text Tok (j - length new) (e - length new).
Proof.
  intros Hj (pre & ws & tok & post & E & <- & Hpre & Hws & Htok & Hp & ->).
  destruct (app_prefix_split _ _ _ _ E Hj) as (pre' & -> & ->).
  exists pre', ws, tok, post. split; [reflexivity|].
  split; [rewrite length_app; lia|].
  split; [apply (ends_line_app_inv new), Hpre|]. split; [exact Hws|].
  split; [exact Htok|]. split; [exact Hp|].
  rewrite <- app_assoc, (length_app new). lia.
Qed.

Lemma heading_start_prepend (new text : str) (j : nat) :
  ends_line new -> heading_start text j ->
  heading_start (new ++ text) (length new + j).
Proof.
  intros Hn (pre & c & post & -> & <- & Hpre & Hc).
  exists (new ++ pre), c, post.
  split; [now rewrite <- app_assoc|]. split; [apply length_app|].
  split; [apply ends_line_app; assumption|exact Hc].
Qed.

Lemma heading_start_prepend_inv (new text : str) (j : nat) :
  length new <= j -> heading_start (new ++ text) j ->
  heading_start text (j - length new).
Proof.
  intros Hj (pre & c & post & E & <- & Hpre & Hc).
  destruct (app_prefix_split _ _ _ _ E Hj) as (pre' & -> & ->).
  exists pre', c, post. split; [reflexivity|].
  split; [rewrite length_app; lia|].
  split; [apply (ends_line_app_inv new), Hpre|exact Hc].
Qed.

Lemma section_end_prepend (new text : str) (start e : nat) :
  ends_line new -> section_end text start e ->
  section_end (new ++ text) (length new + start) (length new + e).
Proof.
  intros Hn (Hle & Hno & He). split; [lia|]. split.
  - intros j Hj Hs. apply heading_start_prepend_inv in Hs; [|lia].
    apply (Hno (j - length new)); [lia|exact Hs].
  - destruct He as [Hs|[-> Hall]].
    + left. apply heading_start_prepend; assumption.
    + right. split; [symmetry; apply length_app|].
      intros j Hj Hs. apply heading_start_prepend_inv in Hs; [|lia].
      apply (Hall (j - length new)); [lia|exact Hs].
Qed.

Lemma slice_prepend (new text : str) (a b : nat) :
  slice (new ++ text) (length new + a) (length new + b) = slice text a b.
Proof.
  unfold slice. rewrite skipn_app, skipn_all2 by lia.
  replace (length new + b - (length new + a)) with (b - a) by lia.
  replace (length new + a - length new) with a by lia. reflexivity.
Qed.

(** X7: text added on top of the document does not change the section of
    a version below it.  When a version parsed and its section is found
    in [text], the same section is found in [new ++ text], as long as
    [new] is empty or ends its last line and no requested heading starts
    in [new]. *)
Theorem section_survives_text_above (version new text : str)
    (v : version_spec) (s : str) :
  parseVersion version = Some v ->
  ends_line new ->
  (forall j e, j < length new ->
               ~ heading_at (new ++ text) (requested (base v) (suffix v)) j e) ->
  findSection text v = Found s ->
  findSection (new ++ text) v = Found s.
Proof.
  intros Hp Hn Hnew Hf. pose proof (parsed_well_formed _ _ Hp) as Hw.
  apply version_string_text in Hw. destruct Hw as (Hb & Hx & _).
  apply (findSection_iff text v s Hb Hx) in Hf.
  destruct Hf as (i & start & e & Hh & Hfirst & He & ->).
  apply (findSection_iff (new ++ text) v _ Hb Hx).
  exists (length new + i), (length new + start), (length new + e).
  split; [apply heading_at_prepend; assumption|]. split; [|split].
  - intros j e' Hj Hh'.
    destruct (Nat.lt_ge_cases j (length new)) as [Hlt|Hge].
    + apply (Hnew j e' Hlt Hh').
    + apply heading_at_prepend_inv in Hh'; [|exact Hge].
      apply (Hfirst (j - length new) _ ltac:(lia) Hh').
  - apply section_end_prepend; assumption.
  - rewrite slice_prepend. reflexivity.
Qed.

Lemma section_survives_text_above_witness :
  parseVersion (py "5.0.2") = Some v502
  /\ ends_line (py "## 5.0.3" ++ nl :: py "newer" ++ [nl])
  /\ (forall j e,
        j < length (py "## 5.0.3" ++ nl :: py "newer" ++ [nl]) ->
        ~ heading_at ((py "## 5.0.3" ++ nl :: py "newer" ++ [nl]) ++ doc_two)
            (requested (base v502) (suffix v502)) j e)
  /\ findSection doc_two v502 = Found (py "body1")
  /\ findSection ((py "## 5.0.3" ++ nl :: py "newer" ++ [nl]) ++ doc_two) v502
     = Found (py "body1").
Proof.
  assert (Hp : parseVersion (py "5.0.2") = Some v502)
    by (vm_compute; reflexivity).
  assert (Hn : ends_line (py "## 5.0.3" ++ nl :: py "newer" ++ [nl])).
  { right. exists (py "## 5.0.3" ++ nl :: py "newer"). reflexivity. }
  assert (Hnew : forall j e,
             j < length (py "## 5.0.3" ++ nl :: py "newer" ++ [nl]) ->
             ~ heading_at
                 ((py "## 5.0.3" ++ nl :: py "newer" ++ [nl]) ++ doc_two)
                 (requested (base v502) (suffix v502)) j e).
  { pose proof (header_search
                  ((py "## 5.0.3" ++ nl :: py "newer" ++ [nl]) ++ doc_two)
                  (base v502) (suffix v502)) as H.
    destruct (search (header_re (base v502) (suffix v502))
                ((py "## 5.0.3" ++ nl :: py "newer" ++ [nl]) ++ doc_two))
      as [m|] eqn:E; [|vm_compute in E; discriminate E].
    destruct H as [_ Hfirst]. intros j e Hj. apply Hfirst.
    vm_compute in E. injection E as <-. exact Hj. }
  assert (Hf : findSection doc_two v502 = Found (py "body1"))
    by (vm_compute; reflexivity).
  split; [exact Hp|]. split; [exact Hn|]. split; [exact Hnew|].
  split; [exact Hf|].
  apply (section_survives_text_above (py "5.0.2") _ doc_two v502 (py "body1")
           Hp Hn Hnew Hf).
Defined.

(** ** Text below the next heading *)

Lemma requested_chars (b : str) (x : option str) (tok : str) :
  base_string b -> suffix_ok x -> requested b x tok ->
  forallb is_suffix_char tok = true.
Proof.
  intros Hb Hx H. apply (requested_cases b x tok Hx) in H.
  assert (Hbc : forallb is_suffix_char b = true).
  { apply (version_chars b b None). split; [exact Hb|reflexivity]. }
  destruct x as [x|].
  - subst tok. rewrite !forallb_app, Hbc. simpl. apply Hx.
  - destruct H as (sfx & Hs & ->). rewrite forallb_app, Hbc.
    destruct Hs as [->|(y & _ & Hy & ->)]; simpl; [reflexivity|exact Hy].
Qed.

Lemma heading_at_chars (text : str) (Tok : str -> Prop) (i e : nat) :
  (forall tok, Tok tok -> forallb is_suffix_char tok = true) ->
  heading_at text Tok i e ->
  nth_error text (i + 1) = Some "#"%char
  /\ forall j, i + 2 <= j < e ->
       exists c, nth_error text j = Some c
                 /\ (is_space c = true \/ is_suffix_char c = true).
Proof.
  intros HT (pre & ws & tok & post & -> & <- & _ & [_ Hws] & Htok & _ & ->).
  split.
  - rewrite nth_error_after. reflexivity.
  - intros j Hj. rewrite !length_app in Hj. simpl in Hj.
    replace j with (length pre + (2 + (j - length pre - 2))) by lia.
    rewrite nth_error_after. cbn [py list_ascii_of_string app Nat.add nth_error].
    rewrite app_assoc, nth_error_app1 by (rewrite length_app; lia).
    destruct (nth_error (ws ++ tok) (j - length pre - 2)) as [c|] eqn:N.
    + exists c. split; [reflexivity|].
      apply nth_error_In in N. apply in_app_or in N. destruct N as [N|N].
      * left. rewrite forallb_forall in Hws. apply Hws, N.
      * right. pose proof (HT tok Htok) as Ht.
        rewrite forallb_forall in Ht. apply Ht, N.
    + apply nth_error_None in N. rewrite length_app in N. lia.
Qed.

Lemma at_token_end_app (post extra : str) :
  post <> [] -> at_token_end post -> at_token_end (post ++ extra).
Proof. destruct post; [congruence|]. auto. Qed.

Lemma at_token_end_app_inv (post extra : str) :
  at_token_end (post ++ extra) -> at_token_end post.
Proof. destruct post; simpl; auto. Qed.

Lemma heading_at_append (text extra : str) (Tok : str -> Prop) (i e : nat) :
  e < length text -> heading_at text Tok i e ->
  heading_at (text ++ extra) Tok i e.
Proof.
  intros He (pre & ws & tok & post & -> & <- & Hpre & Hws & Htok & Hp & ->).
  exists pre, ws, tok, (post ++ extra).
  split; [now rewrite <- !app_assoc|]. split; [reflexivity|].
  split; [exact Hpre|]. split; [exact Hws|]. split; [exact Htok|].
  split; [|reflexivity]. apply at_token_end_app; [|exact Hp].
  intros ->. rewrite !app_nil_r in He. lia.
Qed.

Lemma heading_at_append_inv (text extra : str) (Tok : str -> Prop)
    (j e : nat) :
  e <= length text -> heading_at (text ++ extra) Tok j e ->
  heading_at text Tok j e.
Proof.
  intros He (pre & ws & tok & post & E & <- & Hpre & Hws & Htok & Hp & ->).
  assert (E' : (pre ++ py "##" ++ ws ++ tok) ++ post = text ++ extra)
    by (rewrite E; now rewrite <- !app_assoc).
  destruct (app_prefix_split _ _ _ _ E' He) as (c' & -> & ->).
  exists pre, ws, tok, c'. split; [now rewrite <- !app_assoc|].
  split; [reflexivity|]. split; [exact Hpre|]. split; [exact Hws|].
  split; [exact Htok|]. split; [|reflexivity].
  apply (at_token_end_app_inv c' extra), Hp.
Qed.

Lemma heading_start_append (text extra : str) (j : nat) :
  heading_start text j -> heading_start (text ++ extra) j.
Proof.
  intros (pre & c & post & -> & <- & Hpre & Hc).
  exists pre, c, (post ++ extra). split; [|auto].
  rewrite <- !app_assoc. reflexivity.
Qed.

Lemma heading_start_append_inv (text extra : str) (j : nat) :
  j + 3 <= length text -> heading_start (text ++ extra) j ->
  heading_start text j.
Proof.
  intros Hj (pre & c & post & E & <- & Hpre & Hc).
  assert (E' : (pre ++ py "##" ++ [c]) ++ post = text ++ extra)
    by (rewrite E; now rewrite <- !app_assoc).
  destruct (app_prefix_split _ _ _ _ E') as (c' & -> & ->).
  { rewrite !length_app. simpl. lia. }
  exists pre, c, c'. split; [|auto]. rewrite <- !app_assoc. reflexivity.
Qed.

Lemma heading_start_room (text : str) (j : nat) :
  heading_start text j -> j + 3 <= length text.
Proof.
  intros (pre & c & post & -> & <- & _). rewrite !length_app. simpl. lia.
Qed.

Lemma slice_append (text extra : str) (a b : nat) :
  b <= length text -> slice (text ++ extra) a b = slice text a b.
Proof.
  intros Hb. unfold slice. rewrite skipn_app, firstn_app, length_skipn.
  replace (b - a - (length text - a)) with 0 by lia.
  rewrite firstn_O, app_nil_r. reflexivity.
Qed.

(** X8: a section that ends at a heading does not depend on what follows
    that heading.  When a version parsed, its heading is found in [text]
    and a line of [text] after the version token starts with [##] and a
    white space, [findSection] returns on [text ++ extra] what it returns
    on [text], whatever [extra] is. *)
Theorem section_survives_text_below (version text extra : str)
    (v : version_spec) (m : match_obj) (j : nat) :
  parseVersion version = Some v ->
  search (header_re (base v) (suffix v)) text = Some m ->
  m_end m <= j ->
  heading_start text j ->
  findSection (text ++ extra) v = findSection text v.
Proof.
  intros Hp Hm Hj Hsj. pose proof (parsed_well_formed _ _ Hp) as Hw.
  apply version_string_text in Hw. destruct Hw as (Hb & Hx & _).
  destruct (search_heading text v m Hm) as [Hh Hfirst].
  pose proof (heading_at_lt _ _ _ _ Hh) as Hlt.
  destruct (end_from_spec text v m Hm) as (Hle & Hno & He).
  rewrite (findSection_match text v m Hm).
  set (E := end_from text (m_end m)) in *.
  assert (Hs : heading_start text E).
  { destruct He as [Hs|[_ Hall]]; [exact Hs|]. destruct (Hall j Hj Hsj). }
  pose proof (heading_start_room _ _ Hs) as Hroom.
  apply (findSection_iff (text ++ extra) v _ Hb Hx).
  exists (m_start m), (m_end m), E. split; [|split; [|split]].
  - apply heading_at_append; [lia|exact Hh].
  - intros k e' Hk Hh'.
    destruct (Nat.le_gt_cases e' (length text)) as [Hin|Hout].
    + apply heading_at_append_inv in Hh'; [|exact Hin].
      apply (Hfirst k e' Hk Hh').
    + destruct (heading_at_chars _ _ _ _
                  (fun tok => requested_chars _ _ tok Hb Hx) Hh') as [_ Hc].
      destruct (Hc (m_start m + 1) ltac:(lia)) as (c & Ec & Hcc).
      destruct (heading_at_chars _ _ _ _
                  (fun tok => requested_chars _ _ tok Hb Hx) Hh) as [Hhash _].
      rewrite nth_error_app1, Hhash in Ec by lia.
      injection Ec as <-. destruct Hcc; discriminate.
  - split; [exact Hle|]. split.
    + intros k Hk Hs'. apply heading_start_append_inv in Hs'; [|lia].
      apply (Hno k Hk Hs').
    + left. apply heading_start_append, Hs.
  - rewrite slice_append by lia. reflexivity.
Qed.

Lemma section_survives_text_below_witness :
  parseVersion (py "5.0.2") = Some v502
  /\ (exists m, search (header_re (base v502) (suffix v502)) doc_two = Some m
                /\ m_end m <= 15)
  /\ heading_start doc_two 15
  /\ findSection (doc_two ++ py " and more") v502 = Found (py "body1").
Proof.
  assert (Hp : parseVersion (py "5.0.2") = Some v502)
    by (vm_compute; reflexivity).
  assert (Hs : heading_start doc_two 15).
  { exists (py "## 5.0.2" ++ nl :: py "body1" ++ [nl]), " "%char,
      (py "5.0.3" ++ nl :: py "body2").
    split; [reflexivity|]. split; [reflexivity|]. split; [|reflexivity].
    right. exists (py "## 5.0.2" ++ nl :: py "body1"). reflexivity. }
  split; [exact Hp|]. split; [|split; [exact Hs|]].
  - eexists. split; [vm_compute; reflexivity|]. vm_compute. lia.
  - rewrite (section_survives_text_below (py "5.0.2") doc_two
               (py " and more") v502 _ 15 Hp eq_refl);
      [vm_compute; reflexivity| vm_compute; lia | exact Hs].
Defined.

(** ** Inside the section *)

Lemma slice_decompose (text : str) (start e : nat) :
  start <= e ->
  text = firstn start text ++ slice text start e ++ skipn e text.
Proof.
  intros Hle. unfold slice.
  rewrite <- (firstn_skipn start text) at 1. f_equal.
  rewrite <- (firstn_skipn (e - start) (skipn start text)) at 1. f_equal.
  rewrite skipn_skipn. f_equal. lia.
Qed.

Lemma section_end_le (text : str) (start e : nat) :
  section_end text start e -> e <= length text.
Proof.
  intros (_ & _ & [Hs|[-> _]]); [|lia].
  apply heading_start_lt in Hs. lia.
Qed.

(** X9: the section returned never runs into a following heading: past
    its first line, no line of the section starts with [##] and a white
    space. *)
Theorem section_holds_no_later_heading (text : str) (v : version_spec)
    (s : str) (k : nat) :
  findSection text v = Found s ->
  0 < k ->
  ~ heading_start s k.
Proof.
  intros Hf Hk (p & c & q & Es & Hl & Hp & Hc).
  pose proof (findSection_spec text v) as H. rewrite Hf in H.
  destruct H as (i & start & e & _ & _ & He & Estrip).
  pose proof (section_end_le _ _ _ He) as Hlen.
  destruct He as (Hle & Hno & _).
  destruct (strip_spec (slice text start e)) as (a & b & Esl & _ & _ & _).
  rewrite <- Estrip in Esl.
  pose proof (slice_decompose text start e Hle) as Et.
  assert (Hstart : length (firstn start text) = start)
    by (apply firstn_length_le; lia).
  assert (Hsl : length (slice text start e) = e - start).
  { unfold slice. rewrite length_firstn, length_skipn. lia. }
  rewrite Esl in Et, Hsl. rewrite Es in Et, Hsl.
  destruct Hp as [->|(p' & ->)]; [simpl in Hl; lia|].
  apply (Hno (start + length a + k)).
  - rewrite !length_app in Hsl. simpl in Hsl. rewrite length_app in Hl.
    simpl in Hl. lia.
  - exists (firstn start text ++ a ++ p' ++ [nl]), c,
      (q ++ b ++ skipn e text).
    split; [|split; [|split; [|exact Hc]]].
    + rewrite Et at 1. rewrite <- !app_assoc. reflexivity.
    + rewrite !length_app, Hstart. rewrite length_app in Hl. lia.
    + right. exists (firstn start text ++ a ++ p').
      rewrite <- !app_assoc. reflexivity.
Qed.

Lemma section_holds_no_later_heading_witness :
  findSection doc_last v502
  = Found (py "body" ++ nl :: py "### Fixes" ++ nl :: py "more")
  /\ 0 < 5
  /\ ~ heading_start (py "body" ++ nl :: py "### Fixes" ++ nl :: py "more") 5.
Proof.
  split; [vm_compute; reflexivity|]. split; [lia|].
  apply (section_holds_no_later_heading doc_last v502);
    [vm_compute; reflexivity|lia].
Defined.

Close Scope re_scope.
